(** * PSUT site scraper: a shallow embedding of [scrape/scraper.py]

    The development follows the source file top to bottom:

    - [Re]: the fragment of Python's [re] that [clean_content] uses
      (literal text, one quantified character class, one capture group,
      leftmost non-overlapping substitution with backtracking);
    - [clean_content]: the five substitutions and the final [strip];
    - [Url]: [urllib.parse.urljoin], the resolver the crawl calls;
    - [Crawl]: the closure [crawl_page] of [scrape_psut_all_links], with
      the two captured mutable objects ([visited_urls], [scraped_data])
      threaded as an explicit state and with the way a call ends (a
      return, or an exception that [except Exception] does not catch),
      together with the run summary.

    Python [str] values are modelled as [string] (and as [list ascii]
    inside the regular-expression engine); [len] is [String.length]. *)

From Stdlib Require Import Ascii String List Arith Lia Bool.
From Stdlib Require Import Decimal DecimalNat DecimalString.
From stdpp Require Import gmap strings list.

Local Open Scope string_scope.
Local Open Scope list_scope.
Local Open Scope nat_scope.

(** The line feed, written ['\n'] in the source. *)
Definition nl : ascii := "010"%char.
Definition sp : ascii := " "%char.

(** [str.isspace] on one character, which is also what [\s] matches in a
    [str] pattern: TAB..CR, FS..US and the space, NEL and NBSP. *)
Definition is_space (c : ascii) : bool :=
  let n := nat_of_ascii c in
  ((9 <=? n) && (n <=? 13)) || ((28 <=? n) && (n <=? 32))
  || (n =? 133) || (n =? 160).

(** ** The regular-expression fragment *)
Module Re.

Inductive charclass :=
| CChar (c : ascii)      (* one literal character *)
| CDot                   (* [.]: anything but a line feed *)
| CSpace.                (* [\s] *)

Definition class_matches (cls : charclass) (c : ascii) : bool :=
  match cls with
  | CChar d => Ascii.eqb c d
  | CDot => negb (Ascii.eqb c nl)
  | CSpace => is_space c
  end.

(** A pattern is a sequence of items.  [Rep cls min greedy capture] is
    the class [cls] repeated [min] or more times, greedily ([*], [+],
    [{min,}]) or lazily ([*?]); [capture] says that the repetition is
    wrapped in the capture group number 1. *)
Inductive item :=
| Lit (text : string)
| Rep (cls : charclass) (min : nat) (greedy capture : bool).

Definition pattern := list item.

(** The result of a match: the text of group 1 and the unread input. *)
Definition result : Type := list ascii * list ascii.

Fixpoint strip_prefix (p : string) (s : list ascii) : option (list ascii) :=
  match p with
  | EmptyString => Some s
  | String a p' =>
      match s with
      | c :: s' => if Ascii.eqb a c then strip_prefix p' s' else None
      | [] => None
      end
  end.

(** Lazy star: try the continuation first, take one more character
    only when it fails. *)
Fixpoint star_lazy {R} (cls : charclass) (k : list ascii -> option R)
    (s : list ascii) : option (list ascii * R) :=
  match k s with
  | Some r => Some ([], r)
  | None =>
      match s with
      | c :: s' =>
          if class_matches cls c then
            match star_lazy cls k s' with
            | Some (m, r) => Some (c :: m, r)
            | None => None
            end
          else None
      | [] => None
      end
  end.

(** Greedy star: take as many characters as possible, give them back
    one at a time while the continuation fails. *)
Fixpoint star_greedy {R} (cls : charclass) (k : list ascii -> option R)
    (s : list ascii) : option (list ascii * R) :=
  match s with
  | c :: s' =>
      if class_matches cls c then
        match star_greedy cls k s' with
        | Some (m, r) => Some (c :: m, r)
        | None => option_map (pair []) (k s)
        end
      else option_map (pair []) (k s)
  | [] => option_map (pair []) (k s)
  end.

(** [min] mandatory characters of the class, then [star]. *)
Fixpoint at_least {R} (cls : charclass) (min : nat)
    (star : list ascii -> option (list ascii * R))
    (s : list ascii) : option (list ascii * R) :=
  match min with
  | 0 => star s
  | S min' =>
      match s with
      | c :: s' =>
          if class_matches cls c then
            match at_least cls min' star s' with
            | Some (m, r) => Some (c :: m, r)
            | None => None
            end
          else None
      | [] => None
      end
  end.

(** [re.match] anchored at the head of [s]. *)
Fixpoint match_items (pat : pattern) (s : list ascii) : option result :=
  match pat with
  | [] => Some ([], s)
  | Lit text :: pat' =>
      match strip_prefix text s with
      | Some s' => match_items pat' s'
      | None => None
      end
  | Rep cls min greedy capture :: pat' =>
      let star := if greedy then star_greedy cls (match_items pat')
                  else star_lazy cls (match_items pat') in
      match at_least cls min star s with
      | Some (m, (g, rest)) => Some (if capture then m else g, rest)
      | None => None
      end
  end.

(** A replacement template: literal text and [\1]. *)
Inductive repl_item := RLit (text : string) | RGroup1.

Definition expand (repl : list repl_item) (g : list ascii) : list ascii :=
  flat_map (fun r => match r with
                     | RLit text => list_ascii_of_string text
                     | RGroup1 => g
                     end) repl.

(** [re.sub]: scan from the left; at a position where the pattern
    matches, emit the replacement and resume after the match ([skip]
    counts the matched characters still to pass over); elsewhere copy
    the character.  None of the patterns of [clean_content] matches
    the empty string, so a match of length 0 is treated as no match. *)
Fixpoint sub_from (pat : pattern) (repl : list repl_item) (skip : nat)
    (s : list ascii) : list ascii :=
  match s with
  | [] => []
  | c :: s' =>
      match skip with
      | S skip' => sub_from pat repl skip' s'
      | 0 =>
          match match_items pat s with
          | Some (g, rest) =>
              match length s - length rest with
              | S n => expand repl g ++ sub_from pat repl n s'
              | 0 => c :: sub_from pat repl 0 s'
              end
          | None => c :: sub_from pat repl 0 s'
          end
      end
  end.

Definition sub (pat : pattern) (repl : list repl_item) (s : string) : string :=
  string_of_list_ascii (sub_from pat repl 0 (list_ascii_of_string s)).

End Re.

(** ** [clean_content] *)

Definition two_newlines : string := String nl (String nl EmptyString).

Definition three_newlines : string := String nl two_newlines.

(** [re.sub(r'\n{3,}', '\n\n', _)] *)
Definition collapse_newlines : string -> string :=
  Re.sub [Re.Rep (Re.CChar nl) 3 true false] [Re.RLit two_newlines].

(** [re.sub(r'\* \[.*?\]\(javascript:void.*?\)', '', _)] *)
Definition remove_navigation : string -> string :=
  Re.sub [Re.Lit "* ["; Re.Rep Re.CDot 0 false false;
          Re.Lit "](javascript:void"; Re.Rep Re.CDot 0 false false;
          Re.Lit ")"] [].

(** [re.sub(r'!\[(.*?)\]\(.*?\)', r'\1', _)] *)
Definition images_to_alt : string -> string :=
  Re.sub [Re.Lit "!["; Re.Rep Re.CDot 0 false true;
          Re.Lit "]("; Re.Rep Re.CDot 0 false false;
          Re.Lit ")"] [Re.RGroup1].

(** [re.sub(r'\[\s*\]\(.*?\)', '', _)] *)
Definition remove_empty_links : string -> string :=
  Re.sub [Re.Lit "["; Re.Rep Re.CSpace 0 true false;
          Re.Lit "]("; Re.Rep Re.CDot 0 false false;
          Re.Lit ")"] [].

(** [re.sub(r' +', ' ', _)] *)
Definition collapse_spaces : string -> string :=
  Re.sub [Re.Rep (Re.CChar sp) 1 true false] [Re.RLit " "].

(** [str.strip()] *)
Fixpoint lstrip_list (s : list ascii) : list ascii :=
  match s with
  | c :: s' => if is_space c then lstrip_list s' else s
  | [] => []
  end.

Definition strip (s : string) : string :=
  string_of_list_ascii
    (rev (lstrip_list (rev (lstrip_list (list_ascii_of_string s))))).

Definition clean_content (markdown_text : string) : string :=
  let cleaned := collapse_newlines markdown_text in
  let cleaned := remove_navigation cleaned in
  let cleaned := images_to_alt cleaned in
  let cleaned := remove_empty_links cleaned in
  let cleaned := collapse_spaces cleaned in
  strip cleaned.

(** ** [urllib.parse.urljoin]

    The crawl resolves every link with the standard library's [urljoin].
    The model follows the library's algorithm (CPython 3.11): [urlsplit]
    and [urlparse] cut the scheme, the authority, the path, the
    parameters, the query and the fragment; [urljoin] merges the paths
    and removes dot segments; [urlunparse] glues the pieces.  A
    [ValueError] of the library is [None]: [urlsplit] raises it for an
    authority with unbalanced brackets, or with brackets around anything
    but an IPv6 or IPvFuture literal.  (Its last check, of the NFKC form
    of a non-ASCII authority, never raises on characters below 256.) *)
Module Url.

Definition in_range (lo hi : nat) (c : ascii) : bool :=
  let n := nat_of_ascii c in (lo <=? n) && (n <=? hi).

Definition is_alpha (c : ascii) : bool := in_range 65 90 c || in_range 97 122 c.
Definition is_digit (c : ascii) : bool := in_range 48 57 c.
Definition is_scheme_char (c : ascii) : bool :=
  is_alpha c || is_digit c
  || Ascii.eqb c "+" || Ascii.eqb c "-" || Ascii.eqb c ".".

Definition lower_char (c : ascii) : ascii :=
  if in_range 65 90 c then ascii_of_nat (nat_of_ascii c + 32) else c.

Fixpoint string_map (f : ascii -> ascii) (s : string) : string :=
  match s with
  | EmptyString => EmptyString
  | String c s' => String (f c) (string_map f s')
  end.

Fixpoint string_forall (p : ascii -> bool) (s : string) : bool :=
  match s with
  | EmptyString => true
  | String c s' => p c && string_forall p s'
  end.

Fixpoint string_filter (p : ascii -> bool) (s : string) : string :=
  match s with
  | EmptyString => EmptyString
  | String c s' => if p c then String c (string_filter p s') else string_filter p s'
  end.

Fixpoint string_dropwhile (p : ascii -> bool) (s : string) : string :=
  match s with
  | EmptyString => EmptyString
  | String c s' => if p c then string_dropwhile p s' else s
  end.

Fixpoint dropwhile_list (p : ascii -> bool) (s : list ascii) : list ascii :=
  match s with
  | c :: s' => if p c then dropwhile_list p s' else s
  | [] => []
  end.

Definition has_char (c : ascii) (s : string) : bool :=
  negb (string_forall (fun d => negb (Ascii.eqb d c)) s).

(** The text before the first character satisfying [p], and the text
    from that character on (empty when there is none). *)
Fixpoint break (p : ascii -> bool) (s : string) : string * string :=
  match s with
  | EmptyString => (EmptyString, EmptyString)
  | String c s' =>
      if p c then (EmptyString, s)
      else let (a, b) := break p s' in (String c a, b)
  end.

Definition tail (s : string) : string :=
  match s with EmptyString => EmptyString | String _ s' => s' end.

(** [s.split(c, 1)] when [c] occurs in [s], [(s, "")] otherwise. *)
Definition split_once (c : ascii) (s : string) : string * string :=
  let (a, b) := break (Ascii.eqb c) s in (a, tail b).

(** [s.split('/')] *)
Fixpoint split_slash (s : string) : list string :=
  match s with
  | EmptyString => [EmptyString]
  | String c s' =>
      if Ascii.eqb c "/" then EmptyString :: split_slash s'
      else match split_slash s' with
           | seg :: segs => String c seg :: segs
           | [] => [String c EmptyString]
           end
  end.

(** ['/'.join(segs)] *)
Fixpoint join_slash (segs : list string) : string :=
  match segs with
  | [] => EmptyString
  | [seg] => seg
  | seg :: segs' => seg +:+ "/" +:+ join_slash segs'
  end.

Definition mem (s : string) (l : list string) : bool := existsb (String.eqb s) l.

Definition uses_relative : list string :=
  [""; "ftp"; "http"; "gopher"; "nntp"; "imap"; "wais"; "file"; "https";
   "shttp"; "mms"; "prospero"; "rtsp"; "rtspu"; "sftp"; "svn"; "svn+ssh";
   "ws"; "wss"].

Definition uses_netloc : list string :=
  [""; "ftp"; "http"; "gopher"; "nntp"; "telnet"; "imap"; "wais"; "file";
   "mms"; "https"; "shttp"; "snews"; "prospero"; "rtsp"; "rtspu"; "rsync";
   "svn"; "svn+ssh"; "sftp"; "nfs"; "git"; "git+ssh"; "ws"; "wss"].

Definition uses_params : list string :=
  [""; "ftp"; "hdl"; "prospero"; "http"; "imap"; "https"; "shttp"; "rtsp";
   "rtspu"; "sip"; "sips"; "mms"; "sftp"; "tel"].

Record parsed := {
  scheme : string; netloc : string; path : string;
  params : string; query : string; fragment : string }.

(** The scheme of [url] and what follows its colon, when [url] starts
    with a letter and has only scheme characters before the first
    colon. *)
Definition split_scheme (url : string) : option (string * string) :=
  let (pre, post) := break (Ascii.eqb ":") url in
  match pre, post with
  | String c _, String _ rest =>
      if is_alpha c && string_forall is_scheme_char pre
      then Some (string_map lower_char pre, rest) else None
  | _, _ => None
  end.

Definition is_delim (c : ascii) : bool :=
  Ascii.eqb c "/" || Ascii.eqb c "?" || Ascii.eqb c "#".

(** [s.strip(blank)] for the C0 controls and the space. *)
Definition strip_scheme_blank (s : string) : string :=
  let blank := in_range 0 32 in
  string_of_list_ascii
    (rev (dropwhile_list blank (rev (dropwhile_list blank (list_ascii_of_string s))))).

Definition nonempty (s : string) : bool := negb (String.eqb s EmptyString).

(** [s.split(c)] *)
Fixpoint split_on (c : ascii) (s : string) : list string :=
  match s with
  | EmptyString => [EmptyString]
  | String x s' =>
      if Ascii.eqb x c then EmptyString :: split_on c s'
      else match split_on c s' with
           | seg :: segs => String x seg :: segs
           | [] => [String x EmptyString]
           end
  end.

Definition is_hex (c : ascii) : bool :=
  is_digit c || in_range 97 102 c || in_range 65 70 c.

(** [int(s, 10)] on decimal digits. *)
Fixpoint decimal_value (acc : nat) (s : string) : nat :=
  match s with
  | EmptyString => acc
  | String c s' => decimal_value (10 * acc + (nat_of_ascii c - 48)) s'
  end.

(** [ipaddress.IPv4Address._parse_octet] returns: one to three ASCII
    digits, no leading zero, at most 255. *)
Definition valid_octet (s : string) : bool :=
  if nonempty s && string_forall is_digit s && (String.length s <=? 3)
  then (String.eqb s "0" || negb (String.prefix "0" s))
       && (decimal_value 0 s <=? 255)
  else false.

(** [ipaddress.IPv4Address(s)] returns. *)
Definition valid_ipv4 (s : string) : bool :=
  negb (has_char "/" s) && nonempty s
  && (length (split_on "." s) =? 4) && forallb valid_octet (split_on "." s).

(** [ipaddress.IPv6Address._parse_hextet] returns. *)
Definition valid_hextet (s : string) : bool :=
  string_forall is_hex s && (String.length s <=? 4) && nonempty s.

(** The index, counted from [i], of the first empty part. *)
Fixpoint find_empty (i : nat) (inner : list string) : option nat :=
  match inner with
  | [] => None
  | part :: inner' => if nonempty part then find_empty (S i) inner' else Some i
  end.

(** [ipaddress.IPv6Address(s)] returns: an optional scope after [%],
    three to nine parts between colons, the last one an IPv4 address
    when it has a dot (the library puts its two halves in its place,
    here ["0"] twice, the value of the address being of no use), at most
    one [::], and hexadecimal parts of one to four digits. *)
Definition valid_ipv6 (s : string) : bool :=
  let (addr, scope) := break (Ascii.eqb "%") s in
  let scope_ok := match scope with
                  | EmptyString => true
                  | String _ scope_id => nonempty scope_id && negb (has_char "%" scope_id)
                  end in
  let last_part := List.last (split_on ":" addr) EmptyString in
  let dotted := has_char "." last_part in
  let parts := if dotted then removelast (split_on ":" addr) ++ ["0"; "0"]
               else split_on ":" addr in
  let inner := removelast (List.tail parts) in
  negb (has_char "/" s) && scope_ok && nonempty addr
  && (3 <=? length (split_on ":" addr))
  && (if dotted then valid_ipv4 last_part else true)
  && (length parts <=? 9)
  && match length (List.filter (fun part => negb (nonempty part)) inner),
           find_empty 1 inner with
     | 0, _ => (length parts =? 8) && forallb valid_hextet parts
     | 1, Some skip_index =>
         let parts_hi := firstn skip_index parts in
         let parts_lo := skipn (S skip_index) parts in
         let first_empty := negb (nonempty (List.hd EmptyString parts)) in
         let last_empty := negb (nonempty (List.last parts EmptyString)) in
         (if first_empty then length parts_hi =? 1
          else forallb valid_hextet parts_hi)
         && (if last_empty then length parts_lo =? 1
             else forallb valid_hextet parts_lo)
         && ((if first_empty then 0 else length parts_hi)
             + (if last_empty then 0 else length parts_lo) <=? 7)
     | _, _ => false
     end.

(** The pattern [\Av[a-fA-F0-9]+\..+\Z] of an IPvFuture literal matches. *)
Definition valid_ipvfuture (hostname : string) : bool :=
  match hostname with
  | String "v" rest =>
      let (digits, after) := break (fun c => negb (is_hex c)) rest in
      nonempty digits &&
      match after with
      | String "." more => nonempty more && negb (has_char "010" more)
      | _ => false
      end
  | _ => false
  end.

(** [_check_bracketed_host] returns: the host is an IPvFuture literal,
    or an IP address that is not an IPv4 address. *)
Definition check_bracketed_host (hostname : string) : bool :=
  if String.prefix "v" hostname then valid_ipvfuture hostname
  else valid_ipv6 hostname.

(** [_check_bracketed_netloc] returns. *)
Definition check_bracketed_netloc (loc : string) : bool :=
  let hostname_and_port := List.last (split_on "@" loc) EmptyString in
  let (before_bracket, from_bracket) := break (Ascii.eqb "[") hostname_and_port in
  match from_bracket with
  | String _ bracketed =>
      let (hostname, from_close) := break (Ascii.eqb "]") bracketed in
      let port := tail from_close in
      if nonempty before_bracket then false
      else if nonempty port && negb (String.prefix ":" port) then false
      else check_bracketed_host hostname
  | EmptyString =>
      let (hostname, _) := break (Ascii.eqb ":") hostname_and_port in
      check_bracketed_host hostname
  end.

(** [urlsplit(url, scheme)], with the path still carrying its
    parameters. *)
Definition urlsplit (url default_scheme : string) : option parsed :=
  let url := string_dropwhile (in_range 0 32) url in
  let unsafe c := Ascii.eqb c "009" || Ascii.eqb c "010" || Ascii.eqb c "013" in
  let url := string_filter (fun c => negb (unsafe c)) url in
  let default_scheme :=
    string_filter (fun c => negb (unsafe c))
      (strip_scheme_blank default_scheme) in
  let (sch, url) := match split_scheme url with
                    | Some (sch, rest) => (sch, rest)
                    | None => (default_scheme, url)
                    end in
  let (loc, url) := if String.prefix "//" url
                    then break is_delim (tail (tail url))
                    else (EmptyString, url) in
  let brackets_checked :=
    if has_char "[" loc && has_char "]" loc
    then check_bracketed_netloc loc else true in
  if xorb (has_char "[" loc) (has_char "]" loc) then None
  else if negb brackets_checked then None
  else
    let (url, frag) := split_once "#" url in
    let (url, qry) := split_once "?" url in
    Some {| scheme := sch; netloc := loc; path := url;
            params := EmptyString; query := qry; fragment := frag |}.

(** [_splitparams], called when the path has a semicolon: cut at the
    first semicolon of the last path segment. *)
Definition splitparams (url : string) : string * string :=
  if has_char "/" url then
    let segs := split_slash url in
    let last_seg := List.last segs EmptyString in
    if has_char ";" last_seg then
      let (a, b) := split_once ";" last_seg in
      (join_slash (removelast segs ++ [a]), b)
    else (url, EmptyString)
  else split_once ";" url.

Definition urlparse (url default_scheme : string) : option parsed :=
  match urlsplit url default_scheme with
  | None => None
  | Some p =>
      if mem (scheme p) uses_params && has_char ";" (path p) then
        let (u, pr) := splitparams (path p) in
        Some {| scheme := scheme p; netloc := netloc p; path := u;
                params := pr; query := query p; fragment := fragment p |}
      else Some p
  end.

Definition urlunsplit (sch loc url qry frag : string) : string :=
  let url :=
    if nonempty loc
       || (nonempty sch && mem sch uses_netloc && negb (String.prefix "//" url))
    then "//" +:+ loc +:+
         (if nonempty url && negb (String.prefix "/" url) then "/" +:+ url else url)
    else url in
  let url := if nonempty sch then sch +:+ ":" +:+ url else url in
  let url := if nonempty qry then url +:+ "?" +:+ qry else url in
  if nonempty frag then url +:+ "#" +:+ frag else url.

Definition urlunparse (p : parsed) : string :=
  let url := if nonempty (params p) then path p +:+ ";" +:+ params p else path p in
  urlunsplit (scheme p) (netloc p) url (query p) (fragment p).

(** [segments[1:-1] = filter(None, segments[1:-1])] *)
Definition drop_inner_empty (segments : list string) : list string :=
  match segments with
  | first :: (_ :: _) as rest =>
      first :: filter (fun seg => nonempty seg = true) (removelast rest)
            ++ [List.last rest EmptyString]
  | _ => segments
  end.

(** One turn of the dot-segment loop. *)
Definition resolve_step (resolved_path : list string) (seg : string) : list string :=
  if String.eqb seg ".." then removelast resolved_path
  else if String.eqb seg "." then resolved_path
  else resolved_path ++ [seg].

Definition urljoin (base url : string) : option string :=
  if negb (nonempty base) then Some url
  else if negb (nonempty url) then Some base
  else
    match urlparse base EmptyString with
    | None => None
    | Some b =>
        match urlparse url (scheme b) with
        | None => None
        | Some u =>
            if negb (String.eqb (scheme u) (scheme b))
               || negb (mem (scheme u) uses_relative)
            then Some url
            else if mem (scheme u) uses_netloc && nonempty (netloc u)
            then Some (urlunparse u)
            else
              let loc := if mem (scheme u) uses_netloc then netloc b else netloc u in
              if negb (nonempty (path u)) && negb (nonempty (params u))
              then Some (urlunparse
                     {| scheme := scheme u; netloc := loc; path := path b;
                        params := params b;
                        query := if nonempty (query u) then query u else query b;
                        fragment := fragment u |})
              else
                let base_parts := split_slash (path b) in
                let base_parts :=
                  if nonempty (List.last base_parts EmptyString)
                  then removelast base_parts else base_parts in
                let segments :=
                  if String.prefix "/" (path u) then split_slash (path u)
                  else drop_inner_empty (base_parts ++ split_slash (path u)) in
                let resolved_path := fold_left resolve_step segments [] in
                let resolved_path :=
                  if mem (List.last segments EmptyString) ["."; ".."]
                  then resolved_path ++ [EmptyString] else resolved_path in
                let joined := join_slash resolved_path in
                Some (urlunparse
                  {| scheme := scheme u; netloc := loc;
                     path := if nonempty joined then joined else "/";
                     params := params u; query := query u;
                     fragment := fragment u |})
        end
    end.

End Url.

(** ** The crawl *)

(** [needle in hay] on Python strings. *)
Fixpoint str_in (needle hay : string) : bool :=
  match hay with
  | EmptyString => String.prefix needle hay
  | String _ hay' => String.prefix needle hay || str_in needle hay'
  end.

(** What [scrape_psut_all_links] is built from: its constants (the root
    of the crawl, the two substrings of the scope test, the page cap,
    the depth cap and the least length of a page worth keeping) and the
    resolver it imports from [urllib.parse], whose [ValueError] is
    [None]. *)
Record config := {
  base_url : string;
  domain : string;
  path_marker : string;
  max_pages : nat;
  max_depth : nat;
  min_length : nat;
  urljoin : string -> string -> option string }.

Definition psut : config :=
  {| base_url := "https://www.psut.edu.jo/ar";
     domain := "psut.edu.jo";
     path_marker := "/ar";
     max_pages := 3000;
     max_depth := 10;
     min_length := 100;
     urljoin := Url.urljoin |}.

(** One entry of [result.links["internal"]]: a dict, with or without an
    ["href"], or any other object, read through [str]. *)
Inductive link_data :=
| LinkDict (href : option string)
| LinkOther (text : string).

(** What the crawl reads of the fetcher's result.  [markdown] is [None]
    for a missing value; [links] is [None] when the result has no usable
    [links] or no ["internal"] entry. *)
Record crawl_result := {
  success : bool;
  markdown : option string;
  links : option (list link_data) }.

(** A call of [crawler.arun] returns a result, raises an exception of
    the class [Exception], or raises one outside that class
    ([asyncio.CancelledError], [KeyboardInterrupt], [SystemExit]). *)
Inductive fetch_outcome :=
| Raises
| Interrupts
| Returns (result : crawl_result).

Record page_data := {
  url : string;
  content : string;
  depth : nat }.

(** What a run does besides updating its two collections, in order:
    the lines it prints, its calls of the fetcher and its sleeps. *)
Inductive event :=
| Crawling (count : nat) (u : string)
| Arun (u : string)
| Saved (characters : nat)
| NoContent
| Error
| Sleep.

Record state := {
  visited_urls : gset string;
  scraped_data : list page_data;
  log : list event }.

Definition initial : state :=
  {| visited_urls := ∅; scraped_data := []; log := [] |}.

Definition emit (e : event) (st : state) : state :=
  {| visited_urls := visited_urls st;
     scraped_data := scraped_data st;
     log := log st ++ [e] |}.

(** [visited_urls.add(url)] and the progress line. *)
Definition claim (u : string) (st : state) : state :=
  let visited := {[u]} ∪ visited_urls st in
  {| visited_urls := visited;
     scraped_data := scraped_data st;
     log := log st ++ [Crawling (size visited) u] |}.

(** [scraped_data.append(page_data)] and the line that reports it. *)
Definition save (page : page_data) (st : state) : state :=
  {| visited_urls := visited_urls st;
     scraped_data := scraped_data st ++ [page];
     log := log st ++ [Saved (String.length (content page))] |}.

Definition truthy (s : option string) : option string :=
  match s with
  | Some EmptyString | None => None
  | Some text => Some text
  end.

Definition internal_links (result : crawl_result) : list link_data :=
  match links result with
  | Some l => l
  | None => []
  end.

Definition link_url (l : link_data) : string :=
  match l with
  | LinkDict (Some h) => h
  | LinkDict None => EmptyString
  | LinkOther text => text
  end.

(** How a [try] block, or a call, ends: normally, with an exception
    that the clause [except Exception] catches, or with one that the
    clause lets through. *)
Inductive ending := Normal | Raised | Interrupted.

Section Crawl.

Variable cfg : config.
Variable arun : string -> fetch_outcome.

Definition in_scope (u : string) : bool :=
  str_in (domain cfg) u && str_in (path_marker cfg) u.

(** The three early returns, before anything is claimed. *)
Definition pruned (u : string) (d : nat) (st : state) : bool :=
  (max_depth cfg <? d) || (max_pages cfg <=? size (visited_urls st))
  || bool_decide (u ∈ visited_urls st)
  || negb (in_scope u).

(** The [for] loop over the internal links; [visit] is the recursive
    call, and an exception that leaves it leaves the loop.  The outer
    [None] is a recursion that ran out of fuel. *)
Fixpoint crawl_links (visit : string -> nat -> state -> option (ending * state))
    (d : nat) (ls : list link_data) (st : state) : option (ending * state) :=
  match ls with
  | [] => Some (Normal, st)
  | l :: ls' =>
      if Url.nonempty (link_url l) then
        match urljoin cfg (base_url cfg) (link_url l) with
        | None => Some (Raised, st)
        | Some full_url =>
            if bool_decide (full_url ∈ visited_urls st) then
              crawl_links visit d ls' st
            else
              match visit full_url (d + 1) (emit Sleep st) with
              | Some (Normal, st') => crawl_links visit d ls' st'
              | Some (e, st') => Some (e, st')
              | None => None
              end
        end
      else crawl_links visit d ls' st
  end.

(** The body of the [try]. *)
Definition try_body (visit : string -> nat -> state -> option (ending * state))
    (u : string) (d : nat) (st : state) : option (ending * state) :=
  let st := emit (Arun u) st in
  match arun u with
  | Raises => Some (Raised, st)
  | Interrupts => Some (Interrupted, st)
  | Returns result =>
      match (if success result then truthy (markdown result) else None) with
      | Some text =>
          let cleaned_content := clean_content text in
          if min_length cfg <? String.length (strip cleaned_content) then
            let st := save {| url := u; content := cleaned_content; depth := d |} st in
            crawl_links visit d (internal_links result) st
          else Some (Normal, st)
      | None => Some (Normal, emit NoContent st)
      end
  end.

(** The early returns, the [try] and its clause [except Exception]: the
    clause prints the error of a caught exception and the call returns;
    any other exception leaves the call. *)
Definition crawl_page_body (visit : string -> nat -> state -> option (ending * state))
    (u : string) (d : nat) (st : state) : option (ending * state) :=
  if pruned u d st then Some (Normal, st)
  else
    match try_body visit u d (claim u st) with
    | Some (Normal, st') => Some (Normal, st')
    | Some (Raised, st') => Some (Normal, emit Error st')
    | Some (Interrupted, st') => Some (Interrupted, st')
    | None => None
    end.

(** [crawl_page], with the depth of the Python recursion bounded by
    [fuel]: how the call ends, and the collections and the log at that
    point. *)
Fixpoint crawl_page_outcome (fuel : nat) :
    string -> nat -> state -> option (ending * state) :=
  match fuel with
  | 0 => fun _ _ _ => None
  | S fuel' => crawl_page_body (crawl_page_outcome fuel')
  end.

(** What a call of [crawl_page] does to the collections and to the log:
    the state in which it ends. *)
Definition crawl_page (fuel : nat) (u : string) (d : nat) (st : state) : option state :=
  option_map snd (crawl_page_outcome fuel u d st).

(** The run: [crawl_page(crawler, base_url)] on the fresh collections.
    [max_depth + 2] nested calls are all a run can need. *)
Definition crawl_outcome : option (ending * state) :=
  crawl_page_outcome (max_depth cfg + 2) (base_url cfg) 0 initial.

Definition crawl : option state :=
  crawl_page (max_depth cfg + 2) (base_url cfg) 0 initial.

End Crawl.

(** The summary written at the end of the run. *)
Record summary := {
  total_pages : nat;
  urls : list string;
  total_characters : nat }.

Definition make_summary (scraped : list page_data) : summary :=
  {| total_pages := length scraped;
     urls := map url scraped;
     total_characters :=
       fold_left (fun acc page => acc + String.length (content page)) scraped 0 |}.

(** ** The files of pages

    After the crawl, [scrape_psut_all_links] writes one text file per
    record: [page_000.txt], [page_001.txt], ... in the order of the
    records, each with the URL, the depth, a rule of 80 equal signs, an
    empty line and the content. *)

(** [str(n)] for a natural number. *)
Definition decimal (n : nat) : string :=
  NilEmpty.string_of_uint (Nat.to_uint n).

Fixpoint repeat_string (n : nat) (s : string) : string :=
  match n with 0 => EmptyString | S n' => s +:+ repeat_string n' s end.

(** [f"{n:03d}"]: the decimal digits, with zeros in front up to three
    characters. *)
Definition pad3 (n : nat) : string :=
  repeat_string (3 - String.length (decimal n)) "0" +:+ decimal n.

Definition page_filename (i : nat) : string :=
  "page_" +:+ pad3 i +:+ ".txt".

Definition newline : string := String nl EmptyString.

Definition page_text (page : page_data) : string :=
  "URL: " +:+ url page +:+ newline
  +:+ "Depth: " +:+ decimal (depth page) +:+ newline
  +:+ repeat_string 80 "=" +:+ newline +:+ newline
  +:+ content page.

(** The writes of the loop over [enumerate(scraped_data)]: the name and
    the text of each file, in order.  A later write to a name would
    replace an earlier one. *)
Definition page_files (scraped : list page_data) : list (string * string) :=
  imap (fun i page => (page_filename i, page_text page)) scraped.

(** ** The calls of a run, as a derivation

    [visits u d st e st']: the call [crawl_page(crawler, u, d)] entered
    in state [st] ends in state [st'], by returning ([Normal]) or by an
    exception that its [except] clause lets through ([Interrupted]).
    [expands d ls st e st']: the loop over the links [ls] of a page of
    depth [d], entered in [st], ends in [st'], normally or by an
    exception.  One constructor per path through the code. *)

(** The [except] clause: the line it prints, and how the call ends. *)
Definition finish (e : ending) (st : state) : state :=
  match e with
  | Raised => emit Error st
  | Normal | Interrupted => st
  end.

Definition handled (e : ending) : ending :=
  match e with
  | Raised => Normal
  | Normal | Interrupted => e
  end.

Inductive visits (cfg : config) (arun : string -> fetch_outcome) :
    string -> nat -> state -> ending -> state -> Prop :=
| visits_pruned u d st :
    pruned cfg u d st = true ->
    visits cfg arun u d st Normal st
| visits_raises u d st :
    pruned cfg u d st = false ->
    arun u = Raises ->
    visits cfg arun u d st Normal (emit Error (emit (Arun u) (claim u st)))
| visits_interrupts u d st :
    pruned cfg u d st = false ->
    arun u = Interrupts ->
    visits cfg arun u d st Interrupted (emit (Arun u) (claim u st))
| visits_no_content u d st result :
    pruned cfg u d st = false ->
    arun u = Returns result ->
    (if success result then truthy (markdown result) else None) = None ->
    visits cfg arun u d st Normal (emit NoContent (emit (Arun u) (claim u st)))
| visits_short u d st result text :
    pruned cfg u d st = false ->
    arun u = Returns result ->
    (if success result then truthy (markdown result) else None) = Some text ->
    (min_length cfg <? String.length (strip (clean_content text))) = false ->
    visits cfg arun u d st Normal (emit (Arun u) (claim u st))
| visits_saved u d st result text e st' :
    pruned cfg u d st = false ->
    arun u = Returns result ->
    (if success result then truthy (markdown result) else None) = Some text ->
    (min_length cfg <? String.length (strip (clean_content text))) = true ->
    expands cfg arun d (internal_links result)
      (save {| url := u; content := clean_content text; depth := d |}
         (emit (Arun u) (claim u st))) e st' ->
    visits cfg arun u d st (handled e) (finish e st')
with expands (cfg : config) (arun : string -> fetch_outcome) :
    nat -> list link_data -> state -> ending -> state -> Prop :=
| expands_done d st :
    expands cfg arun d [] st Normal st
| expands_no_href d l ls st e st' :
    Url.nonempty (link_url l) = false ->
    expands cfg arun d ls st e st' ->
    expands cfg arun d (l :: ls) st e st'
| expands_raises d l ls st :
    Url.nonempty (link_url l) = true ->
    urljoin cfg (base_url cfg) (link_url l) = None ->
    expands cfg arun d (l :: ls) st Raised st
| expands_seen d l ls st full_url e st' :
    Url.nonempty (link_url l) = true ->
    urljoin cfg (base_url cfg) (link_url l) = Some full_url ->
    full_url ∈ visited_urls st ->
    expands cfg arun d ls st e st' ->
    expands cfg arun d (l :: ls) st e st'
| expands_visit d l ls st full_url st1 e st' :
    Url.nonempty (link_url l) = true ->
    urljoin cfg (base_url cfg) (link_url l) = Some full_url ->
    full_url ∉ visited_urls st ->
    visits cfg arun full_url (d + 1) (emit Sleep st) Normal st1 ->
    expands cfg arun d ls st1 e st' ->
    expands cfg arun d (l :: ls) st e st'
| expands_interrupted d l ls st full_url st1 :
    Url.nonempty (link_url l) = true ->
    urljoin cfg (base_url cfg) (link_url l) = Some full_url ->
    full_url ∉ visited_urls st ->
    visits cfg arun full_url (d + 1) (emit Sleep st) Interrupted st1 ->
    expands cfg arun d (l :: ls) st Interrupted st1.

Scheme visits_mut := Minimality for visits Sort Prop
  with expands_mut := Minimality for expands Sort Prop.

(** ** What the properties speak of *)

(** The URLs handed to the fetcher, in order. *)
Definition fetched (l : list event) : list string :=
  omap (fun e => match e with Arun u => Some u | _ => None end) l.

(** A log in which every call of the fetcher comes right after the
    progress line that announces the claim of the same URL. *)
Inductive claims_first : list event -> Prop :=
| claims_first_nil : claims_first []
| claims_first_fetch l n u :
    claims_first l -> claims_first (l ++ [Crawling n u; Arun u])
| claims_first_other l e :
    claims_first l ->
    match e with Arun _ | Crawling _ _ => False | _ => True end ->
    claims_first (l ++ [e]).

(** The invariant of the two collections and of the log. *)
Record coherent (cfg : config) (st : state) : Prop := {
  coh_distinct : NoDup (map url (scraped_data st));
  coh_claimed : forall r, r ∈ scraped_data st ->
                  url r ∈ visited_urls st /\ depth r <= max_depth cfg;
  coh_once : NoDup (fetched (log st));
  coh_fetched : forall u, u ∈ fetched (log st) <-> u ∈ visited_urls st;
  coh_cap : size (visited_urls st) <= max_pages cfg;
  coh_order : claims_first (log st);
  coh_scope : forall u, u ∈ visited_urls st -> in_scope cfg u = true }.

(** The number of copies of [c] at the head of [s]. *)
Fixpoint run (c : ascii) (s : list ascii) : nat :=
  match s with
  | x :: s' => if Ascii.eqb x c then S (run c s') else 0
  | [] => 0
  end.

(** The pattern [c{min,}], and [re.sub] of it on a list of characters. *)
Definition run_pattern (c : ascii) (min : nat) : Re.pattern :=
  [Re.Rep (Re.CChar c) min true false].

Definition squeeze_runs (c : ascii) (min : nat) (repl : list Re.repl_item)
    (s : list ascii) : list ascii :=
  Re.sub_from (run_pattern c min) repl 0 s.

(** [st'] is [st] with more claimed, more saved and more logged. *)
Record extends (st st' : state) : Prop := {
  ext_visited : visited_urls st ⊆ visited_urls st';
  ext_scraped : scraped_data st `prefix_of` scraped_data st';
  ext_log : log st `prefix_of` log st' }.

(** [l] is one of the internal links of the page at [p]. *)
Definition link_of (arun : string -> fetch_outcome) (p : string) (l : link_data) : Prop :=
  exists result, arun p = Returns result /\ l ∈ internal_links result.

(** [p] has a link that resolves, against the base URL of the run, to
    [w]. *)
Definition link_edge (cfg : config) (arun : string -> fetch_outcome)
    (p w : string) : Prop :=
  exists l,
    link_of arun p l /\
    Url.nonempty (link_url l) = true /\
    urljoin cfg (base_url cfg) (link_url l) = Some w.


(** [w] is at most [n] links away from [p]. *)
Inductive path_within (cfg : config) (arun : string -> fetch_outcome) :
    nat -> string -> string -> Prop :=
| path_here n p : path_within cfg arun n p p
| path_step n p q w :
    link_edge cfg arun p q -> path_within cfg arun n q w ->
    path_within cfg arun (S n) p w.

(** [needle] occurs in [hay]. *)
Definition occurs_in (needle hay : string) : Prop :=
  exists pre post, hay = pre +:+ needle +:+ post.

(** The authority of a URL, as [urlsplit] cuts it. *)
Definition host_of (u : string) : string :=
  match Url.urlsplit u EmptyString with
  | Some p => Url.netloc p
  | None => EmptyString
  end.

(** What a fetch of [u] leaves in the records, if anything: the URL and
    the cleaned text of a page fetched with success, with a text, and
    long enough. *)
Definition kept (cfg : config) (arun : string -> fetch_outcome)
    (u : string) : option (string * string) :=
  match arun u with
  | Raises | Interrupts => None
  | Returns result =>
      match (if success result then truthy (markdown result) else None) with
      | Some text =>
          if min_length cfg <? String.length (strip (clean_content text))
          then Some (u, clean_content text) else None
      | None => None
      end
  end.

(** [str.strip()] on a list of characters. *)
Definition strip_list (l : list ascii) : list ascii :=
  rev (lstrip_list (rev (lstrip_list l))).

(** A text with no white space at either end. *)
Definition trimmed (s : string) : Prop :=
  (forall c rest, s = String c rest -> is_space c = false) /\
  (forall front c, s = front +:+ String c EmptyString -> is_space c = false).

(** A continuation that reads a prefix of its input and returns a group
    no longer than what it read. *)
Definition reads_prefix (k : list ascii -> option Re.result) : Prop :=
  forall s g rest, k s = Some (g, rest) ->
    exists m, s = m ++ rest /\ length g <= length m.

(** A repetition followed by such a continuation. *)
Definition reads_more (star : list ascii -> option (list ascii * Re.result)) : Prop :=
  forall s m g rest, star s = Some (m, (g, rest)) ->
    exists m', s = m ++ m' ++ rest /\ length g <= length m'.

(** A link that the loop would follow: it has a target, the target
    resolves, and the resolved URL is not in the visited set. *)
Definition pending (cfg : config) (st : state) (l : link_data) : bool :=
  Url.nonempty (link_url l) &&
  match urljoin cfg (base_url cfg) (link_url l) with
  | Some full_url => negb (bool_decide (full_url ∈ visited_urls st))
  | None => false
  end.

(** No more than [b] copies of [c] stand side by side in [l]. *)
Definition short_runs (c : ascii) (b : nat) (l : list ascii) : Prop :=
  forall front back, l = front ++ back -> run c back <= b.

(** The URL and the text of a record. *)
Definition entry (r : page_data) : string * string := (url r, content r).

(** A log in which every progress line comes right after a sleep;
    [after_sleep] says whether the event before the log was one. *)
Fixpoint paced_from (after_sleep : bool) (l : list event) : bool :=
  match l with
  | [] => true
  | Crawling _ _ :: l' => after_sleep && paced_from false l'
  | Sleep :: l' => paced_from true l'
  | _ :: l' => paced_from false l'
  end.

(** The counts shown by the progress lines, and the number of sleeps. *)
Definition counts (l : list event) : list nat :=
  omap (fun e => match e with Crawling n _ => Some n | _ => None end) l.

Definition sleeps (l : list event) : nat :=
  length (omap (fun e => match e with Sleep => Some tt | _ => None end) l).

(** Every link of the page resolves: [urljoin] raises on none of them. *)
Definition resolvable (cfg : config) (result : crawl_result) : Prop :=
  forall l, l ∈ internal_links result ->
    Url.nonempty (link_url l) = true ->
    urljoin cfg (base_url cfg) (link_url l) <> None.

(** The progress lines so far count from 1 to the size of the visited
    set. *)
Definition counted (st : state) : Prop :=
  counts (log st) = seq 1 (size (visited_urls st)).

(** Every link of the page of [r] that is in scope has been visited. *)
Definition links_followed (cfg : config) (arun : string -> fetch_outcome)
    (st : state) (r : page_data) : Prop :=
  depth r < max_depth cfg ->
  forall result, arun (url r) = Returns result -> resolvable cfg result ->
  forall l w, l ∈ internal_links result ->
    Url.nonempty (link_url l) = true ->
    urljoin cfg (base_url cfg) (link_url l) = Some w ->
    in_scope cfg w = true -> w ∈ visited_urls st.

(** ** A synthetic site: two pages that link to each other *)

Definition long_text : string := repeat_string 30 "word ".

Definition page_with (text : string) (hrefs : list string) : fetch_outcome :=
  Returns {| success := true; markdown := Some text;
             links := Some (map (fun h => LinkDict (Some h)) hrefs) |}.

Definition site_a : string := "https://www.psut.edu.jo/ar".
Definition site_b : string := "https://www.psut.edu.jo/ar/b".

Definition two_cycle (u : string) : fetch_outcome :=
  if String.eqb u site_a then page_with long_text ["/ar/b"]
  else if String.eqb u site_b then page_with long_text ["/ar"]
  else Raises.



(** A site whose root links to a page that cannot be fetched and then
    to one that can. *)
Definition flaky_site (u : string) : fetch_outcome :=
  if String.eqb u site_a then page_with long_text ["/ar/broken"; "/ar/b"]
  else if String.eqb u site_b then page_with long_text []
  else Raises.

(** The same site, with a page that interrupts the fetcher in the place
    of the page that cannot be fetched. *)
Definition interrupted_site (u : string) : fetch_outcome :=
  if String.eqb u site_a then page_with long_text ["/ar/broken"; "/ar/b"]
  else if String.eqb u site_b then page_with long_text []
  else Interrupts.

(** A page of another host whose path carries the domain string, and a
    site whose root links to it. *)
Definition foreign_url : string := "https://example.org/ar/psut.edu.jo".

Definition foreign_site (u : string) : fetch_outcome :=
  if String.eqb u site_a then page_with long_text [foreign_url]
  else if String.eqb u foreign_url then page_with long_text []
  else Raises.


(** * Properties *)

Section CrawlFacts.

Variable cfg : config.
Variable arun : string -> fetch_outcome.

Lemma visits_not_raised u d st e st' :
  visits cfg arun u d st e st' -> e <> Raised.
Proof. intros H. inversion H as [| | | | |? ? ? ? ? e0]; subst; try done. by destruct e0. Qed.

Lemma crawl_links_expands visit d ls :
  (forall u st e st',
     visit u (d + 1) st = Some (e, st') -> visits cfg arun u (d + 1) st e st') ->
  forall st e st',
    crawl_links cfg visit d ls st = Some (e, st') ->
    expands cfg arun d ls st e st'.
Proof.
  intros Hvisit. induction ls as [|l ls IH]; intros st e st' H; simpl in H.
  - injection H as <- <-. constructor.
  - destruct (Url.nonempty (link_url l)) eqn:Hne.
    + destruct (urljoin cfg (base_url cfg) (link_url l)) as [full|] eqn:Hj.
      * case_bool_decide as Hin.
        -- eapply expands_seen; eauto.
        -- destruct (visit full (d + 1) (emit Sleep st)) as [[e1 st1]|] eqn:Hv;
             [|discriminate].
           apply Hvisit in Hv. destruct e1.
           ++ eapply expands_visit; eauto.
           ++ by apply visits_not_raised in Hv.
           ++ injection H as <- <-. eapply expands_interrupted; eauto.
      * injection H as <- <-. by apply expands_raises.
    + apply expands_no_href; auto.
Qed.

(** Every result of the function is a derivation. *)
Lemma crawl_page_outcome_visits fuel :
  forall u d st e st',
    crawl_page_outcome cfg arun fuel u d st = Some (e, st') ->
    visits cfg arun u d st e st'.
Proof.
  induction fuel as [|fuel IH]; intros u d st e st' H; [discriminate|].
  simpl in H. unfold crawl_page_body in H.
  destruct (pruned cfg u d st) eqn:Hp.
  - injection H as <- <-. by constructor.
  - unfold try_body in H.
    destruct (arun u) as [| |result] eqn:Ha.
    + injection H as <- <-. by apply visits_raises.
    + injection H as <- <-. by apply visits_interrupts.
    + destruct (if success result then truthy (markdown result) else None)
        as [text|] eqn:Ht.
      * destruct (min_length cfg <? String.length (strip (clean_content text))) eqn:Hlen.
        -- match type of H with
           | match ?c with _ => _ end = _ => destruct c as [[e1 st1]|] eqn:Hl; [|discriminate]
           end.
           apply crawl_links_expands in Hl; [|by auto].
           replace e with (handled e1) by (destruct e1; simpl; congruence).
           replace st' with (finish e1 st1) by (destruct e1; simpl; congruence).
           eapply visits_saved; eauto.
        -- injection H as <- <-. eapply visits_short; eauto.
      * injection H as <- <-. eapply visits_no_content; eauto.
Qed.

Lemma crawl_page_visits fuel u d st st' :
  crawl_page cfg arun fuel u d st = Some st' ->
  exists e, visits cfg arun u d st e st'.
Proof.
  unfold crawl_page. intros H.
  destruct (crawl_page_outcome cfg arun fuel u d st) as [[e st1]|] eqn:Hrun;
    [|discriminate].
  injection H as <-. exists e. by eapply crawl_page_outcome_visits.
Qed.

Lemma pruned_deep u d st : max_depth cfg < d -> pruned cfg u d st = true.
Proof.
  intros H. unfold pruned.
  apply Nat.ltb_lt in H. by rewrite H.
Qed.

Lemma crawl_links_total visit d ls :
  (forall u st, is_Some (visit u (d + 1) st)) ->
  forall st, is_Some (crawl_links cfg visit d ls st).
Proof.
  intros Hvisit. induction ls as [|l ls IH]; intros st; simpl; [by eexists|].
  destruct (Url.nonempty (link_url l)); [|by apply IH].
  destruct (urljoin cfg (base_url cfg) (link_url l)) as [full|]; [|by eexists].
  case_bool_decide; [by apply IH|].
  destruct (Hvisit full (emit Sleep st)) as [[[] st1] ->]; [by apply IH|by eexists..].
Qed.

(** The recursion is bounded by the depth cap: with enough fuel for the
    levels that remain, a call ends. *)
Lemma crawl_page_outcome_total fuel :
  forall u d st,
    0 < fuel -> max_depth cfg + 2 <= fuel + d ->
    is_Some (crawl_page_outcome cfg arun fuel u d st).
Proof.
  induction fuel as [|fuel IH]; intros u d st Hpos Hfuel; [lia|].
  simpl. unfold crawl_page_body.
  destruct (pruned cfg u d st) eqn:Hp; [by eexists|].
  assert (d <= max_depth cfg) as Hd.
  { destruct (le_lt_dec d (max_depth cfg)); [done|].
    rewrite pruned_deep in Hp; [discriminate|done]. }
  unfold try_body.
  destruct (arun u) as [| |result]; [by eexists..|].
  destruct (if success result then truthy (markdown result) else None);
    [|by eexists].
  destruct (_ <? _); [|by eexists].
  edestruct (crawl_links_total (crawl_page_outcome cfg arun fuel) d (internal_links result))
    as [[e st1] ->].
  - intros v st0. apply IH; lia.
  - destruct e; by eexists.
Qed.

Lemma crawl_page_total fuel u d st :
  0 < fuel -> max_depth cfg + 2 <= fuel + d ->
  is_Some (crawl_page cfg arun fuel u d st).
Proof.
  intros Hpos Hfuel. unfold crawl_page.
  destruct (crawl_page_outcome_total fuel u d st Hpos Hfuel) as [[e st'] ->].
  by eexists.
Qed.

End CrawlFacts.

Section Invariant.

Variable cfg : config.
Variable arun : string -> fetch_outcome.

Lemma pruned_false u d st :
  pruned cfg u d st = false ->
  d <= max_depth cfg /\ size (visited_urls st) < max_pages cfg /\
  (u ∉ visited_urls st) /\ in_scope cfg u = true.
Proof.
  unfold pruned. intros H.
  apply orb_false_elim in H as [H Hscope].
  apply orb_false_elim in H as [H Hin].
  apply orb_false_elim in H as [Hd Hsize].
  apply Nat.ltb_ge in Hd. apply Nat.leb_gt in Hsize.
  apply bool_decide_eq_false in Hin. apply negb_false_iff in Hscope.
  done.
Qed.

Lemma fetched_snoc l e :
  fetched (l ++ [e]) = fetched l ++ match e with Arun u => [u] | _ => [] end.
Proof. unfold fetched. rewrite omap_app. by destruct e. Qed.

Lemma size_claim u (visited : gset string) :
  u ∉ visited -> size ({[u]} ∪ visited) = S (size visited).
Proof.
  intros H. rewrite size_union by (by apply disjoint_singleton_l).
  by rewrite size_singleton.
Qed.

Lemma coherent_emit e st :
  match e with Arun _ | Crawling _ _ => False | _ => True end ->
  coherent cfg st -> coherent cfg (emit e st).
Proof.
  intros He [H1 H2 H3 H4 H5 H6 H7].
  assert (fetched (log st ++ [e]) = fetched (log st)) as Hf.
  { rewrite fetched_snoc. destruct e; try done; by rewrite app_nil_r. }
  split; simpl; try done.
  - by rewrite Hf.
  - by rewrite Hf.
  - by apply claims_first_other.
Qed.

Lemma coherent_fetch u d st :
  pruned cfg u d st = false ->
  coherent cfg st -> coherent cfg (emit (Arun u) (claim u st)).
Proof.
  intros Hp [H1 H2 H3 H4 H5 H6 H7].
  apply pruned_false in Hp as (Hd & Hsize & Hnew & Hscope).
  assert (fetched ((log st ++ [Crawling (size ({[u]} ∪ visited_urls st)) u])
                     ++ [Arun u]) = fetched (log st) ++ [u]) as Hf.
  { rewrite !fetched_snoc. by rewrite app_nil_r. }
  split; simpl.
  - done.
  - intros r Hr. destruct (H2 r Hr). split; [|done].
    apply elem_of_union. by right.
  - rewrite Hf. apply NoDup_app. split_and!; [done| |apply NoDup_singleton].
    intros x Hx Hx'. apply list_elem_of_singleton in Hx' as ->.
    by apply Hnew, H4.
  - intros x.
    rewrite Hf, elem_of_app, list_elem_of_singleton, H4, elem_of_union, elem_of_singleton.
    tauto.
  - rewrite size_claim by done. lia.
  - rewrite <- app_assoc. by apply claims_first_fetch.
  - intros x Hx. apply elem_of_union in Hx as [Hx|Hx]; [|by auto].
    by apply elem_of_singleton in Hx as ->.
Qed.

Lemma coherent_save u d st text :
  pruned cfg u d st = false ->
  coherent cfg st ->
  coherent cfg (save {| url := u; content := text; depth := d |}
                  (emit (Arun u) (claim u st))).
Proof.
  intros Hp Hst.
  pose proof (coherent_fetch u d st Hp Hst) as [H1 H2 H3 H4 H5 H6 H7].
  apply pruned_false in Hp as (Hd & Hsize & Hnew & Hscope).
  simpl in *.
  assert (fetched (((log st ++ [Crawling (size ({[u]} ∪ visited_urls st)) u])
                      ++ [Arun u]) ++ [Saved (String.length text)])
          = fetched ((log st ++ [Crawling (size ({[u]} ∪ visited_urls st)) u])
                      ++ [Arun u])) as Hf.
  { rewrite (fetched_snoc _ (Saved _)). by rewrite app_nil_r. }
  split; simpl.
  - rewrite map_app. simpl. apply NoDup_app. split_and!; [done| |apply NoDup_singleton].
    intros x Hx Hx'. apply list_elem_of_singleton in Hx' as ->.
    apply list_elem_of_fmap in Hx as (r & -> & Hr).
    destruct Hst as [_ Hc _ _ _ _ _]. by destruct (Hc r Hr).
  - intros r Hr. apply elem_of_app in Hr as [Hr|Hr]; [by auto|].
    apply list_elem_of_singleton in Hr as ->. simpl. split; [|done].
    apply elem_of_union. left. by apply elem_of_singleton.
  - by rewrite Hf.
  - intros x. by rewrite Hf.
  - done.
  - by apply claims_first_other.
  - done.
Qed.

(** Every call of [crawl_page], and every run of the link loop, keeps
    the invariant. *)
Lemma visits_coherent u d st e st' :
  visits cfg arun u d st e st' -> coherent cfg st -> coherent cfg st'.
Proof.
  revert u d st e st'.
  apply (visits_mut cfg arun
           (fun _ _ st _ st' => coherent cfg st -> coherent cfg st')
           (fun _ _ st e st' => coherent cfg st -> coherent cfg (finish e st'))).
  - auto.
  - intros u d st Hp _ Hst. apply coherent_emit; [done|]. by eapply coherent_fetch.
  - intros u d st Hp _ Hst. by eapply coherent_fetch.
  - intros u d st result Hp _ _ Hst.
    apply coherent_emit; [done|]. by eapply coherent_fetch.
  - intros u d st result text Hp _ _ _ Hst. by eapply coherent_fetch.
  - intros u d st result text e st' Hp _ _ _ _ IH Hst.
    apply IH. by apply coherent_save.
  - auto.
  - auto.
  - intros d l ls st _ _ Hst. simpl. by apply coherent_emit.
  - auto.
  - intros d l ls st full st1 e st' _ _ _ _ IHv _ IHe Hst.
    apply IHe, IHv. by apply coherent_emit.
  - intros d l ls st full st1 _ _ _ _ IHv Hst.
    apply IHv. by apply coherent_emit.
Qed.

Lemma coherent_initial : coherent cfg initial.
Proof.
  split; unfold initial; cbn [visited_urls scraped_data log].
  - constructor.
  - intros r Hr. by apply elem_of_nil in Hr.
  - constructor.
  - intros u. split; intros H; [by apply elem_of_nil in H|by apply elem_of_empty in H].
  - rewrite size_empty. lia.
  - constructor.
  - intros u H. by apply elem_of_empty in H.
Qed.

(** A run ends, and in a state that satisfies the invariant. *)
Lemma crawl_outcome_coherent :
  exists e st, crawl_outcome cfg arun = Some (e, st) /\ crawl cfg arun = Some st
               /\ coherent cfg st
               /\ visits cfg arun (base_url cfg) 0 initial e st.
Proof.
  destruct (crawl_page_outcome_total cfg arun (max_depth cfg + 2) (base_url cfg) 0 initial)
    as [[e st] Hst]; [lia..|].
  exists e, st. split; [done|].
  split; [unfold crawl, crawl_page; by rewrite Hst|].
  apply crawl_page_outcome_visits in Hst.
  split; [|done]. eapply visits_coherent; [done|apply coherent_initial].
Qed.

Lemma crawl_coherent :
  exists st, crawl cfg arun = Some st /\ coherent cfg st
             /\ exists e, visits cfg arun (base_url cfg) 0 initial e st.
Proof.
  destruct crawl_outcome_coherent as (e & st & _ & Hrun & Hst & Hv).
  exists st. eauto.
Qed.

End Invariant.

Section Provenance.

Variable cfg : config.
Variable arun : string -> fetch_outcome.

Lemma extends_refl st : extends st st.
Proof. by split. Qed.

Lemma extends_trans st1 st2 st3 :
  extends st1 st2 -> extends st2 st3 -> extends st1 st3.
Proof. intros [] []. split; by etrans. Qed.

Lemma extends_emit e st : extends st (emit e st).
Proof. split; simpl; [done|done|by apply prefix_app_r]. Qed.

Lemma extends_claim u st : extends st (claim u st).
Proof.
  split; simpl; [|done|by apply prefix_app_r].
  apply union_subseteq_r.
Qed.

Lemma extends_save page st : extends st (save page st).
Proof. split; simpl; [done|by apply prefix_app_r..]. Qed.

Lemma extends_finish e st : extends st (finish e st).
Proof. destruct e; [apply extends_refl|apply extends_emit|apply extends_refl]. Qed.

(** A call only adds to the collections and to the log. *)
Lemma visits_extends u d st e st' :
  visits cfg arun u d st e st' -> extends st st'.
Proof.
  revert u d st e st'.
  apply (visits_mut cfg arun
           (fun _ _ st _ st' => extends st st')
           (fun _ _ st _ st' => extends st st')).
  - intros. apply extends_refl.
  - intros u d st _ _.
    eauto using extends_trans, extends_claim, extends_emit.
  - intros u d st _ _.
    eauto using extends_trans, extends_claim, extends_emit.
  - intros u d st result _ _ _.
    eauto using extends_trans, extends_claim, extends_emit.
  - intros u d st result text _ _ _ _.
    eauto using extends_trans, extends_claim, extends_emit.
  - intros u d st result text e st' _ _ _ _ _ IH.
    eapply extends_trans; [|apply extends_finish].
    eapply extends_trans; [|exact IH].
    eauto using extends_trans, extends_claim, extends_emit, extends_save.
  - intros. apply extends_refl.
  - auto.
  - intros. apply extends_refl.
  - auto.
  - intros d l ls st full st1 e st' _ _ _ _ IHv _ IHe.
    eauto using extends_trans, extends_emit.
  - intros d l ls st full st1 _ _ _ _ IHv.
    eauto using extends_trans, extends_emit.
Qed.

Lemma expands_extends d ls st e st' :
  expands cfg arun d ls st e st' -> extends st st'.
Proof.
  induction 1; eauto using extends_refl, extends_trans, extends_emit, visits_extends.
Qed.

Lemma path_within_step d p q w :
  d + 1 <= max_depth cfg ->
  link_edge cfg arun p q ->
  path_within cfg arun (max_depth cfg - (d + 1)) q w ->
  path_within cfg arun (max_depth cfg - d) p w.
Proof.
  intros Hd He Hp.
  replace (max_depth cfg - d) with (S (max_depth cfg - (d + 1))) by lia.
  by eapply path_step.
Qed.

(** Whatever a call at depth [d] claims is within [max_depth - d] links
    of its URL. *)
Lemma visits_within u d st e st' :
  visits cfg arun u d st e st' ->
  forall w, w ∈ visited_urls st' ->
    w ∈ visited_urls st \/
    (d <= max_depth cfg /\ path_within cfg arun (max_depth cfg - d) u w).
Proof.
  revert u d st e st'.
  apply (visits_mut cfg arun
    (fun u d st _ st' => forall w, w ∈ visited_urls st' ->
       w ∈ visited_urls st \/
       (d <= max_depth cfg /\ path_within cfg arun (max_depth cfg - d) u w))
    (fun d ls st _ st' => forall p, (forall l, l ∈ ls -> link_of arun p l) ->
       forall w, w ∈ visited_urls st' ->
       w ∈ visited_urls st \/
       (d + 1 <= max_depth cfg /\ path_within cfg arun (max_depth cfg - d) p w))).
  - auto.
  - intros u d st Hp _ w Hw. apply pruned_false in Hp as (Hd & _).
    simpl in Hw. apply elem_of_union in Hw as [Hw|Hw]; [|by left].
    apply elem_of_singleton in Hw as ->. right. split; [done|constructor].
  - intros u d st Hp _ w Hw. apply pruned_false in Hp as (Hd & _).
    simpl in Hw. apply elem_of_union in Hw as [Hw|Hw]; [|by left].
    apply elem_of_singleton in Hw as ->. right. split; [done|constructor].
  - intros u d st result Hp _ _ w Hw. apply pruned_false in Hp as (Hd & _).
    simpl in Hw. apply elem_of_union in Hw as [Hw|Hw]; [|by left].
    apply elem_of_singleton in Hw as ->. right. split; [done|constructor].
  - intros u d st result text Hp _ _ _ w Hw. apply pruned_false in Hp as (Hd & _).
    simpl in Hw. apply elem_of_union in Hw as [Hw|Hw]; [|by left].
    apply elem_of_singleton in Hw as ->. right. split; [done|constructor].
  - intros u d st result text e st' Hp Ha _ _ _ IH w Hw.
    apply pruned_false in Hp as (Hd & _).
    assert (w ∈ visited_urls st') as Hw' by (by destruct e).
    destruct (IH u) with (w := w) as [Hin|[_ Hpath]]; [|done| |].
    + intros l Hl. by exists result.
    + simpl in Hin. apply elem_of_union in Hin as [Hin|Hin]; [|by left].
      apply elem_of_singleton in Hin as ->. right. split; [done|constructor].
    + by right.
  - auto.
  - intros d l ls st e st' _ _ IH p Hls w Hw.
    apply (IH p); [|done]. intros l' Hl'. apply Hls. by right.
  - auto.
  - intros d l ls st full e st' _ _ _ _ IH p Hls w Hw.
    apply (IH p); [|done]. intros l' Hl'. apply Hls. by right.
  - intros d l ls st full st1 e st' Hne Hj _ _ IHv _ IHe p Hls w Hw.
    destruct (IHe p) with (w := w) as [Hin|Hpath]; [|done| |by right].
    { intros l' Hl'. apply Hls. by right. }
    destruct (IHv w Hin) as [Hin'|[Hd Hpath]]; [by left|].
    right. split; [done|].
    apply path_within_step with (q := full); [done| |done].
    exists l. split; [|done]. apply Hls. by left.
  - intros d l ls st full st1 Hne Hj _ _ IHv p Hls w Hw.
    destruct (IHv w Hw) as [Hin'|[Hd Hpath]]; [by left|].
    right. split; [done|].
    apply path_within_step with (q := full); [done| |done].
    exists l. split; [|done]. apply Hls. by left.
Qed.

End Provenance.

Section Runs.

Variable cfg : config.
Variable arun : string -> fetch_outcome.

Lemma crawl_page_outcome_pruned fuel u d st :
  pruned cfg u d st = true ->
  crawl_page_outcome cfg arun (S fuel) u d st = Some (Normal, st).
Proof.
  intros H. cbn [crawl_page_outcome]. unfold crawl_page_body. by rewrite H.
Qed.

Lemma crawl_page_pruned fuel u d st :
  pruned cfg u d st = true -> crawl_page cfg arun (S fuel) u d st = Some st.
Proof.
  intros H. unfold crawl_page. cbn [crawl_page_outcome].
  unfold crawl_page_body. by rewrite H.
Qed.

Lemma pruned_visited u d st :
  u ∈ visited_urls st -> pruned cfg u d st = true.
Proof.
  intros H. unfold pruned. rewrite (bool_decide_eq_true_2 _ H).
  by rewrite orb_true_r.
Qed.

Lemma pruned_out_of_scope u d st :
  in_scope cfg u = false -> pruned cfg u d st = true.
Proof. intros H. unfold pruned. rewrite H. by rewrite orb_true_r. Qed.

Lemma pruned_full u d st :
  max_pages cfg <= size (visited_urls st) -> pruned cfg u d st = true.
Proof.
  intros H. unfold pruned. apply Nat.leb_le in H. rewrite H.
  by rewrite orb_true_r.
Qed.

(** A list without repetition drawn from a set is no longer than the
    set is large. *)
Lemma length_le_size (l : list string) (X : gset string) :
  NoDup l -> (forall x, x ∈ l -> x ∈ X) -> length l <= size X.
Proof.
  intros Hnd Hsub.
  rewrite <- (size_list_to_set (C := gset string) l Hnd).
  apply subseteq_size. intros x Hx. apply elem_of_list_to_set in Hx. auto.
Qed.

Lemma coherent_records st :
  coherent cfg st -> length (scraped_data st) <= size (visited_urls st).
Proof.
  intros [H1 H2 _ _ _ _ _].
  rewrite <- (length_map url). apply length_le_size; [done|].
  intros x Hx. apply list_elem_of_fmap in Hx as (r & -> & Hr).
  by destruct (H2 r Hr).
Qed.

(** Where the last element of a list falls when the list is cut
    around one of its elements. *)
Lemma snoc_cut {A} (l pre post : list A) (e x : A) :
  l ++ [e] = pre ++ x :: post ->
  (post = [] /\ l = pre /\ e = x) \/
  (exists post', post = post' ++ [e] /\ l = pre ++ x :: post').
Proof.
  destruct post as [|y post _] using rev_ind; intros Heq.
  - left. apply app_inj_tail in Heq as [-> ->]. done.
  - right. rewrite app_comm_cons, app_assoc in Heq.
    apply app_inj_tail in Heq as [-> ->]. eauto.
Qed.

(** In such a log every call of the fetcher has the claim of its URL
    right before it. *)
Lemma claims_first_before l :
  claims_first l ->
  forall pre post u, l = pre ++ Arun u :: post ->
    exists pre' n, pre = pre' ++ [Crawling n u].
Proof.
  induction 1 as [|l n v Hl IH|l e Hl IH He]; intros pre post u Heq.
  - by destruct pre.
  - change [Crawling n v; Arun v] with ([Crawling n v] ++ [Arun v]) in Heq.
    rewrite app_assoc in Heq.
    apply snoc_cut in Heq as [(_ & <- & [= <-])|(post' & -> & Heq)]; [eauto|].
    apply snoc_cut in Heq as [(_ & _ & [=])|(post'' & -> & Heq)]. eauto.
  - apply snoc_cut in Heq as [(_ & _ & ->)|(post' & -> & Heq)]; [done|eauto].
Qed.

End Runs.

Section Records.

Variable cfg : config.
Variable arun : string -> fetch_outcome.



End Records.

Lemma prefix_occurs (needle hay : string) :
  String.prefix needle hay = true <-> exists post, hay = needle +:+ post.
Proof.
  revert hay. induction needle as [|a needle IH]; intros hay.
  - split; [intros _; by exists hay|by destruct hay].
  - destruct hay as [|b hay].
    + split; [discriminate|]. intros [post Hpost]. discriminate.
    + cbn [String.prefix].
      destruct (ascii_dec a b) as [->|Hne].
      * rewrite IH. split; intros [post Hpost]; exists post.
        -- by rewrite Hpost.
        -- change (String b needle +:+ post)
             with (String b (needle +:+ post)) in Hpost.
           congruence.
      * split; [done|]. intros [post Hpost].
        change (String a needle +:+ post)
          with (String a (needle +:+ post)) in Hpost.
        congruence.
Qed.

(** [str_in] decides the occurrence of one string inside another. *)
Lemma str_in_occurs (needle hay : string) :
  str_in needle hay = true <-> occurs_in needle hay.
Proof.
  split.
  - induction hay as [|c hay IH]; cbn [str_in]; intros H.
    + apply prefix_occurs in H as [post Hpost]. by exists EmptyString, post.
    + apply orb_true_iff in H as [H|H].
      * apply prefix_occurs in H as [post Hpost]. by exists EmptyString, post.
      * destruct (IH H) as (pre & post & ->). by exists (String c pre), post.
  - intros (pre & post & ->). induction pre as [|c pre IH].
    + assert (String.prefix needle (needle +:+ post) = true) as H
        by (apply prefix_occurs; by exists post).
      change (EmptyString +:+ needle +:+ post) with (needle +:+ post).
      destruct (needle +:+ post); cbn [str_in]; [done|]. by rewrite H.
    + change (String c pre +:+ needle +:+ post)
        with (String c (pre +:+ needle +:+ post)).
      cbn [str_in]. rewrite IH. by rewrite orb_true_r.
Qed.

Lemma fold_sum_lengths (scraped : list page_data) (acc : nat) :
  fold_left (fun acc page => acc + String.length (content page)) scraped acc
  = acc + sum_list (map (fun page => String.length (content page)) scraped).
Proof.
  revert acc. induction scraped as [|page scraped IH]; intros acc; simpl.
  - lia.
  - rewrite IH. lia.
Qed.

(** ** Substitutions that shorten the runs of one character

    [re.sub] with the pattern [c{min,}] (greedy, [min] at least 1) and a
    replacement made of [k] copies of [c]: the first and the last
    substitution of [clean_content]. *)
Section Squeeze.

Variable c : ascii.
Variable min k : nat.
Variable repl : list Re.repl_item.
Hypothesis min_positive : 1 <= min.
Hypothesis repl_run : forall g, Re.expand repl g = repeat c k.

Abbreviation pat := (run_pattern c min).
Abbreviation squeeze := (squeeze_runs c min repl).

Lemma run_le_length s : run c s <= length s.
Proof.
  induction s as [|x s IH]; simpl; [lia|]. destruct (Ascii.eqb x c); lia.
Qed.

Lemma run_split s :
  s = repeat c (run c s) ++ drop (run c s) s /\ run c (drop (run c s) s) = 0.
Proof.
  induction s as [|x s [IH1 IH2]]; simpl; [done|].
  destruct (Ascii.eqb x c) eqn:Hx; simpl.
  - apply Ascii.eqb_eq in Hx as ->. split; [by rewrite <- IH1|done].
  - by rewrite Hx.
Qed.

Lemma run_repeat_app j u : run c u = 0 -> run c (repeat c j ++ u) = j.
Proof.
  intros Hu. induction j as [|j IH]; simpl; [done|].
  by rewrite Ascii.eqb_refl, IH.
Qed.

Lemma drop_repeat_app j (u : list ascii) : drop j (repeat c j ++ u) = u.
Proof. induction j as [|j IH]; simpl; done. Qed.

Lemma star_greedy_run s :
  Re.star_greedy (Re.CChar c) (Re.match_items []) s
  = Some (take (run c s) s, ([], drop (run c s) s)).
Proof.
  induction s as [|x s IH]; [done|].
  cbn [Re.star_greedy Re.class_matches run].
  destruct (Ascii.eqb x c); [|done]. by rewrite IH.
Qed.

Lemma at_least_run m s :
  Re.at_least (Re.CChar c) m
    (Re.star_greedy (Re.CChar c) (Re.match_items [])) s
  = if m <=? run c s
    then Some (take (run c s) s, ([], drop (run c s) s)) else None.
Proof.
  revert s. induction m as [|m IH]; intros s.
  - apply star_greedy_run.
  - destruct s as [|x s]; [done|].
    cbn [Re.at_least Re.class_matches run].
    destruct (Ascii.eqb x c); [|done].
    rewrite IH. change (S m <=? S (run c s)) with (m <=? run c s).
    by destruct (m <=? run c s).
Qed.

(** The pattern matches at the head of [s] when [s] starts with at
    least [min] copies of [c], and then it matches all of them. *)
Lemma match_run s :
  Re.match_items pat s
  = if min <=? run c s then Some ([], drop (run c s) s) else None.
Proof.
  unfold pat. cbn [Re.match_items]. rewrite at_least_run.
  by destruct (min <=? run c s).
Qed.

Lemma sub_from_skip j s :
  Re.sub_from pat repl j s = squeeze (drop j s).
Proof.
  revert j. induction s as [|x s IH]; intros [|j]; try done.
  cbn [Re.sub_from drop]. apply IH.
Qed.

Lemma squeeze_cons x s :
  squeeze (x :: s)
  = if min <=? run c (x :: s)
    then repeat c k ++ squeeze (drop (run c (x :: s)) (x :: s))
    else x :: squeeze s.
Proof.
  unfold squeeze at 1. cbn [Re.sub_from]. rewrite match_run.
  destruct (min <=? run c (x :: s)) eqn:Hrun; [|done].
  apply Nat.leb_le in Hrun.
  pose proof (run_le_length (x :: s)) as Hle.
  rewrite length_drop.
  replace (length (x :: s) - (length (x :: s) - run c (x :: s)))
    with (run c (x :: s)) by lia.
  destruct (run c (x :: s)) as [|n] eqn:Hn; [lia|].
  by rewrite repl_run, sub_from_skip.
Qed.

Lemma squeeze_other x s :
  Ascii.eqb x c = false -> squeeze (x :: s) = x :: squeeze s.
Proof.
  intros Hx. rewrite squeeze_cons. simpl. rewrite Hx.
  destruct min; [lia|done].
Qed.

Lemma squeeze_keeps_head u : run c u = 0 -> run c (squeeze u) = 0.
Proof.
  destruct u as [|x u]; [done|]. simpl.
  destruct (Ascii.eqb x c) eqn:Hx; [done|]. intros _.
  rewrite squeeze_other by done. simpl. by rewrite Hx.
Qed.

Lemma squeeze_short_run j u :
  run c u = 0 -> j < min ->
  squeeze (repeat c j ++ u) = repeat c j ++ squeeze u.
Proof.
  intros Hu. induction j as [|j IH]; intros Hj; [done|].
  cbn [repeat app]. rewrite squeeze_cons.
  change (c :: repeat c j ++ u) with (repeat c (S j) ++ u).
  rewrite run_repeat_app by done.
  destruct (min <=? S j) eqn:Hle; [apply Nat.leb_le in Hle; lia|].
  rewrite IH by lia. done.
Qed.

Lemma squeeze_long_run j u :
  run c u = 0 -> min <= j ->
  squeeze (repeat c j ++ u) = repeat c k ++ squeeze u.
Proof.
  intros Hu Hj. destruct j as [|j]; [lia|].
  cbn [repeat app]. rewrite squeeze_cons.
  change (c :: repeat c j ++ u) with (repeat c (S j) ++ u).
  rewrite run_repeat_app by done.
  apply Nat.leb_le in Hj. rewrite Hj.
  by rewrite drop_repeat_app.
Qed.

Lemma squeeze_run j u :
  run c u = 0 ->
  squeeze (repeat c j ++ u)
  = (if min <=? j then repeat c k else repeat c j) ++ squeeze u.
Proof.
  intros Hu. destruct (min <=? j) eqn:Hj.
  - apply Nat.leb_le in Hj. by apply squeeze_long_run.
  - apply Nat.leb_gt in Hj. by apply squeeze_short_run.
Qed.

(** Squeezing what has been squeezed changes nothing. *)
Lemma squeeze_idempotent s : squeeze (squeeze s) = squeeze s.
Proof.
  induction s as [s IH] using (induction_ltof1 _ (@length ascii)).
  unfold ltof in IH.
  destruct (run_split s) as [Hs Ht].
  destruct (run c s) as [|r] eqn:Hr.
  - destruct s as [|x s']; [done|].
    simpl in Hr. destruct (Ascii.eqb x c) eqn:Hx; [done|].
    rewrite !squeeze_other by done.
    rewrite IH by (simpl; lia). done.
  - set (t := drop (S r) s) in *.
    assert (length t < length s) as Hlen.
    { rewrite (f_equal length Hs), length_app, repeat_length. lia. }
    pose proof (squeeze_keeps_head t Ht) as Ht'.
    rewrite Hs, (squeeze_run (S r) t Ht).
    destruct (min <=? S r) eqn:Hle.
    + rewrite (squeeze_run k _ Ht'), IH by done.
      by destruct (min <=? k).
    + by rewrite (squeeze_run (S r) _ Ht'), Hle, IH.
Qed.

End Squeeze.

Section Interrupts.

Variable cfg : config.
Variable arun : string -> fetch_outcome.

(** A call, or a link loop, that ends by an exception outside
    [Exception] has fetched a URL on which the fetcher raises one. *)
Lemma visits_interrupted u d st e st' :
  visits cfg arun u d st e st' ->
  e = Interrupted -> exists v, arun v = Interrupts.
Proof.
  revert u d st e st'.
  apply (visits_mut cfg arun
           (fun _ _ _ e _ => e = Interrupted -> exists v, arun v = Interrupts)
           (fun _ _ _ e _ => e = Interrupted -> exists v, arun v = Interrupts));
    try (by eauto).
  intros u d st result text e st' _ _ _ _ _ IH He. apply IH. by destruct e.
Qed.

End Interrupts.



(** * The claims about the traversal *)

(** C1.  A run with page cap [max_pages cfg] ends with at most that many
    page records, whatever the fetcher returns: the records have
    pairwise distinct URLs, each of them a claimed URL, so there are no
    more records than claimed URLs; and a URL is claimed only while the
    visited set is smaller than the cap, a call that finds the set full
    returning at once. *)
Theorem page_cap_bounds_records (cfg : config) (arun : string -> fetch_outcome) :
  (exists st,
      crawl cfg arun = Some st /\
      length (scraped_data st) <= max_pages cfg /\
      length (scraped_data st) <= size (visited_urls st) /\
      size (visited_urls st) <= max_pages cfg /\
      NoDup (map url (scraped_data st)) /\
      (forall r, r ∈ scraped_data st -> url r ∈ visited_urls st)) /\
  (forall fuel u d st,
      max_pages cfg <= size (visited_urls st) ->
      crawl_page cfg arun (S fuel) u d st = Some st).
Proof.
  split.
  - destruct (crawl_coherent cfg arun) as (st & Hrun & Hst & _).
    exists st. pose proof (coherent_records cfg st Hst) as Hlen.
    destruct Hst as [H1 H2 _ _ H5 _ _].
    split_and!; [done|lia|done|done|done|].
    intros r Hr. by destruct (H2 r Hr).
  - intros fuel u d st H. by apply crawl_page_pruned, pruned_full.
Qed.

(** C3.  On every link graph, cyclic or not, the run terminates; no URL
    is handed to the fetcher twice; the fetched URLs are exactly the
    visited set; in the log each call of the fetcher comes right after
    the claim of its URL; and a call on a URL that is already in the
    visited set returns at once, leaving the state as it was.  On the
    site where A links to B and B links back to A, the run fetches A,
    then B, and stops. *)
Theorem cycle_safety (cfg : config) (arun : string -> fetch_outcome) :
  (exists st,
      crawl cfg arun = Some st /\
      NoDup (fetched (log st)) /\
      (forall u, u ∈ fetched (log st) <-> u ∈ visited_urls st) /\
      (forall pre post u, log st = pre ++ Arun u :: post ->
         exists pre' n, pre = pre' ++ [Crawling n u])) /\
  (forall fuel u d st,
      u ∈ visited_urls st -> crawl_page cfg arun (S fuel) u d st = Some st) /\
  (exists st,
      crawl psut two_cycle = Some st /\
      fetched (log st) = [site_a; site_b] /\
      map url (scraped_data st) = [site_a; site_b]).
Proof.
  split_and!.
  - destruct (crawl_coherent cfg arun) as (st & Hrun & Hst & _).
    exists st. destruct Hst as [_ _ H3 H4 _ H6 _].
    split_and!; [done..|].
    by apply claims_first_before.
  - intros fuel u d st H. by apply crawl_page_pruned, pruned_visited.
  - eexists. split; [vm_compute; reflexivity|]. by vm_compute.
Qed.

(** C5.  With depth cap [max_depth cfg], every URL the run fetches is
    reached from the root by a chain of at most [max_depth cfg] links,
    so a page whose shortest distance from the root is larger is never
    visited; and a call with a depth beyond the cap returns at once,
    before it claims or fetches anything. *)
Theorem depth_cap_bounds_visits (cfg : config) (arun : string -> fetch_outcome) :
  (exists st,
      crawl cfg arun = Some st /\
      forall w, w ∈ fetched (log st) ->
        path_within cfg arun (max_depth cfg) (base_url cfg) w) /\
  (forall fuel u d st,
      max_depth cfg < d -> crawl_page cfg arun (S fuel) u d st = Some st).
Proof.
  split.
  - destruct (crawl_coherent cfg arun) as (st & Hrun & Hst & e & Hv).
    exists st. split; [done|]. intros w Hw.
    apply (coh_fetched _ _ Hst) in Hw.
    destruct (visits_within cfg arun _ _ _ _ _ Hv w Hw) as [Hin|[_ Hpath]].
    + by apply elem_of_empty in Hin.
    + by rewrite Nat.sub_0_r in Hpath.
  - intros fuel u d st H. by apply crawl_page_pruned, pruned_deep.
Qed.

(** C7, as the code has it.  The clause [except Exception] keeps a
    failure of the fetcher with its URL when the failure is an exception
    of the class [Exception].  The run ends for every fetcher, and it
    returns normally when the fetcher raises no exception outside that
    class.  When the fetcher raises an [Exception] on a URL that passes
    the guards, the call returns normally: the URL is claimed, the error
    is printed, no record is added and no link is followed.  The same
    holds, with the other message, when the fetcher reports no success
    or no content.  In the loop over the links of a page, a link whose
    fetch raises an [Exception] is followed by the rest of the links: on
    the site whose root links to a page that raises and then to a good
    page, both are fetched and the good one is recorded.  An exception
    outside the class ([asyncio.CancelledError], [KeyboardInterrupt],
    [SystemExit]) is not caught: it leaves the call with the URL claimed
    and nothing printed, it leaves the loop of the page that linked to
    the URL, and on the same site with an interrupting page the run ends
    by that exception before the good page is fetched. *)
Theorem caught_failure_is_local (cfg : config) (arun : string -> fetch_outcome) :
  is_Some (crawl_outcome cfg arun) /\
  ((forall u, arun u <> Interrupts) ->
   exists st, crawl_outcome cfg arun = Some (Normal, st)) /\
  (forall fuel u d st,
      pruned cfg u d st = false -> arun u = Raises ->
      crawl_page_outcome cfg arun (S fuel) u d st
      = Some (Normal, emit Error (emit (Arun u) (claim u st)))) /\
  (forall fuel u d st result,
      pruned cfg u d st = false -> arun u = Returns result ->
      success result = false \/ markdown result = None
        \/ markdown result = Some EmptyString ->
      crawl_page_outcome cfg arun (S fuel) u d st
      = Some (Normal, emit NoContent (emit (Arun u) (claim u st)))) /\
  (forall fuel d l ls st full_url,
      Url.nonempty (link_url l) = true ->
      urljoin cfg (base_url cfg) (link_url l) = Some full_url ->
      pruned cfg full_url (d + 1) (emit Sleep st) = false ->
      arun full_url = Raises ->
      crawl_links cfg (crawl_page_outcome cfg arun (S fuel)) d (l :: ls) st
      = crawl_links cfg (crawl_page_outcome cfg arun (S fuel)) d ls
          (emit Error (emit (Arun full_url) (claim full_url (emit Sleep st))))) /\
  (exists st,
      crawl_outcome psut flaky_site = Some (Normal, st) /\
      fetched (log st) = [site_a; "https://www.psut.edu.jo/ar/broken"; site_b] /\
      map url (scraped_data st) = [site_a; site_b]) /\
  (forall fuel u d st,
      pruned cfg u d st = false -> arun u = Interrupts ->
      crawl_page_outcome cfg arun (S fuel) u d st
      = Some (Interrupted, emit (Arun u) (claim u st))) /\
  (forall fuel d l ls st full_url,
      Url.nonempty (link_url l) = true ->
      urljoin cfg (base_url cfg) (link_url l) = Some full_url ->
      pruned cfg full_url (d + 1) (emit Sleep st) = false ->
      arun full_url = Interrupts ->
      crawl_links cfg (crawl_page_outcome cfg arun (S fuel)) d (l :: ls) st
      = Some (Interrupted,
              emit (Arun full_url) (claim full_url (emit Sleep st)))) /\
  (exists st,
      crawl_outcome psut interrupted_site = Some (Interrupted, st) /\
      fetched (log st) = [site_a; "https://www.psut.edu.jo/ar/broken"] /\
      map url (scraped_data st) = [site_a]).
Proof.
  assert (forall fuel u d st,
      pruned cfg u d st = false -> arun u = Raises ->
      crawl_page_outcome cfg arun (S fuel) u d st
      = Some (Normal, emit Error (emit (Arun u) (claim u st)))) as Hraise.
  { intros fuel u d st Hp Ha. simpl. unfold crawl_page_body, try_body.
    by rewrite Hp, Ha. }
  assert (forall fuel u d st,
      pruned cfg u d st = false -> arun u = Interrupts ->
      crawl_page_outcome cfg arun (S fuel) u d st
      = Some (Interrupted, emit (Arun u) (claim u st))) as Hstop.
  { intros fuel u d st Hp Ha. simpl. unfold crawl_page_body, try_body.
    by rewrite Hp, Ha. }
  split_and!.
  - destruct (crawl_outcome_coherent cfg arun) as (e & st & -> & _). by eexists.
  - intros Hquiet.
    destruct (crawl_outcome_coherent cfg arun) as (e & st & Hrun & _ & _ & Hv).
    exists st. rewrite Hrun. destruct e; [done|..].
    + by apply visits_not_raised in Hv.
    + destruct (visits_interrupted cfg arun _ _ _ _ _ Hv eq_refl) as (v & Hv').
      by apply Hquiet in Hv'.
  - done.
  - intros fuel u d st result Hp Ha Hbad. simpl.
    unfold crawl_page_body, try_body. rewrite Hp, Ha.
    assert ((if success result then truthy (markdown result) else None) = None)
      as ->; [|done].
    destruct Hbad as [->|[->| ->]]; [done|by destruct (success _)..].
  - intros fuel d l ls st full Hne Hj Hp Ha.
    cbn [crawl_links]. rewrite Hne, Hj.
    apply (pruned_false cfg) in Hp as Hp'. destruct Hp' as (_ & _ & Hnew & _).
    rewrite (bool_decide_eq_false_2 _ Hnew).
    by rewrite (Hraise fuel full (d + 1) (emit Sleep st) Hp Ha).
  - eexists. split; [vm_compute; reflexivity|]. by vm_compute.
  - done.
  - intros fuel d l ls st full Hne Hj Hp Ha.
    cbn [crawl_links]. rewrite Hne, Hj.
    apply (pruned_false cfg) in Hp as Hp'. destruct Hp' as (_ & _ & Hnew & _).
    rewrite (bool_decide_eq_false_2 _ Hnew).
    by rewrite (Hstop fuel full (d + 1) (emit Sleep st) Hp Ha).
  - eexists. split; [vm_compute; reflexivity|]. by vm_compute.
Qed.

(** C7 fails as stated: a fetcher that raises an exception outside the
    class [Exception] ends the run by that exception, at the root. *)
Lemma an_interrupt_ends_the_run :
  ~ (forall cfg arun, exists st, crawl_outcome cfg arun = Some (Normal, st)).
Proof.
  intros H. destruct (H psut (fun _ => Interrupts)) as [st Hst].
  vm_compute in Hst. discriminate.
Qed.

(** C10.  The records of a run of the source's configuration have
    pairwise distinct URLs and depths from 0 to 10.  This holds of the
    accumulator at the end of the run and of every earlier value of it
    (the accumulator only grows at its end, so the earlier values are
    its prefixes); and every call of [crawl_page] made in a state that
    satisfies the invariant of the collections returns in such a state,
    with the old records in front of the new ones. *)
Theorem records_distinct_and_shallow (arun : string -> fetch_outcome) :
  (exists st,
      crawl psut arun = Some st /\
      forall acc, acc `prefix_of` scraped_data st ->
        NoDup (map url acc) /\
        forall r, r ∈ acc -> 0 <= depth r /\ depth r <= 10) /\
  (forall fuel u d st st',
      coherent psut st ->
      crawl_page psut arun fuel u d st = Some st' ->
      coherent psut st' /\
      scraped_data st `prefix_of` scraped_data st' /\
      NoDup (map url (scraped_data st')) /\
      forall r, r ∈ scraped_data st' -> 0 <= depth r /\ depth r <= 10).
Proof.
  split.
  - destruct (crawl_coherent psut arun) as (st & Hrun & Hst & _).
    exists st. split; [done|]. intros acc [more Hacc].
    destruct Hst as [H1 H2 _ _ _ _ _]. rewrite Hacc in H1, H2.
    rewrite map_app in H1. apply NoDup_app in H1 as (H1 & _ & _).
    split; [done|]. intros r Hr.
    destruct (H2 r) as [_ Hd]; [apply elem_of_app; by left|].
    simpl in Hd. lia.
  - intros fuel u d st st' Hst Hrun.
    apply crawl_page_visits in Hrun as [e Hrun].
    pose proof (visits_coherent psut arun _ _ _ _ _ Hrun Hst) as Hst'.
    pose proof (visits_extends psut arun _ _ _ _ _ Hrun) as [_ Hpre _].
    split_and!; [done|done|by destruct Hst'|].
    intros r Hr. destruct (coh_claimed _ _ Hst' r Hr) as [_ Hd].
    simpl in Hd. lia.
Qed.



(** C6.  In the source's configuration, a page that was fetched with
    success and a non-empty text is kept exactly when the stripped
    length of its cleaned text is more than 100.  When it is, the record
    of the page, with the cleaned text and the depth of the call, is
    appended to the records.  When it is not, the call returns with the
    URL claimed and the fetch logged and nothing else: the records are
    as before and no link of the page is followed. *)
Theorem short_pages_are_dropped (arun : string -> fetch_outcome)
    (fuel : nat) (u : string) (d : nat) (st : state)
    (result : crawl_result) (text : string) :
  pruned psut u d st = false ->
  arun u = Returns result ->
  success result = true ->
  truthy (markdown result) = Some text ->
  12 <= S fuel + d ->
  exists st',
    crawl_page psut arun (S fuel) u d st = Some st' /\
    (if 100 <? String.length (strip (clean_content text))
     then exists more,
         scraped_data st'
         = scraped_data st
             ++ {| url := u; content := clean_content text; depth := d |} :: more
     else st' = emit (Arun u) (claim u st)) /\
    (scraped_data st' = scraped_data st
     <-> String.length (strip (clean_content text)) <= 100).
Proof.
  intros Hp Ha Hs Ht Hfuel.
  unfold crawl_page. cbn [crawl_page_outcome]. unfold crawl_page_body, try_body.
  rewrite Hp, Ha, Hs, Ht. change (min_length psut) with 100.
  destruct (100 <? String.length (strip (clean_content text))) eqn:Hlen.
  - apply Nat.ltb_lt in Hlen.
    apply (pruned_false psut) in Hp as (Hd & _). change (max_depth psut) with 10 in Hd.
    set (st1 := save _ _).
    destruct (crawl_links_total psut (crawl_page_outcome psut arun fuel) d
                (internal_links result)) with (st := st1) as [[e st2] Hl].
    { intros v st0. apply crawl_page_outcome_total; change (max_depth psut) with 10; lia. }
    rewrite Hl.
    apply crawl_links_expands with (arun := arun) in Hl;
      [|intros; by eapply crawl_page_outcome_visits].
    apply expands_extends in Hl as [_ [more Hmore] _].
    exists (finish e st2).
    assert (scraped_data (finish e st2)
            = scraped_data st
                ++ {| url := u; content := clean_content text; depth := d |} :: more)
      as Hdata.
    { replace (scraped_data (finish e st2)) with (scraped_data st2) by (by destruct e).
      rewrite Hmore. unfold st1. simpl. by rewrite <- app_assoc. }
    split_and!.
    + by destruct e.
    + by exists more.
    + rewrite Hdata. split; [|lia].
      intros Heq. apply (f_equal length) in Heq.
      rewrite length_app in Heq. simpl in Heq. lia.
  - apply Nat.ltb_ge in Hlen. eexists. split_and!; [done..|].
    by split.
Qed.

(** C6 at a page of nine characters: the call returns with the URL
    claimed, the fetch logged and the records as they were. *)
Lemma short_pages_are_dropped_witness :
  exists st',
    crawl_page psut (fun _ => page_with "too short" ["/ar/b"]) 12 site_a 0 initial
    = Some st' /\
    (if 100 <? String.length (strip (clean_content "too short"))
     then exists more,
         scraped_data st'
         = scraped_data initial
             ++ {| url := site_a; content := clean_content "too short";
                   depth := 0 |} :: more
     else st' = emit (Arun site_a) (claim site_a initial)) /\
    (scraped_data st' = scraped_data initial
     <-> String.length (strip (clean_content "too short")) <= 100).
Proof.
  apply (short_pages_are_dropped (fun _ => page_with "too short" ["/ar/b"])
           11 site_a 0 initial
           {| success := true; markdown := Some "too short";
              links := Some [LinkDict (Some "/ar/b")] |} "too short").
  - vm_compute. reflexivity.
  - reflexivity.
  - reflexivity.
  - reflexivity.
  - lia.
Defined.

#[local] Set Warnings "-abstract-large-number".

(** C8.  The summary of a list of records has the number of the records,
    their URLs in the order of the list, and the sum of the lengths of
    their contents; it is a total function of the list.  For three
    records whose contents have 120, 5000 and 30 characters the sum is
    5150 and the URLs come in the order of the records. *)
Theorem summary_totals (scraped : list page_data) :
  total_pages (make_summary scraped) = length scraped /\
  urls (make_summary scraped) = map url scraped /\
  total_characters (make_summary scraped)
  = sum_list (map (fun page => String.length (content page)) scraped) /\
  (forall r1 r2 r3,
      String.length (content r1) = 120 ->
      String.length (content r2) = 5000 ->
      String.length (content r3) = 30 ->
      total_characters (make_summary [r1; r2; r3]) = 5150 /\
      urls (make_summary [r1; r2; r3]) = [url r1; url r2; url r3]).
Proof.
  split_and!; [done|done| |].
  - unfold make_summary. cbn [total_characters]. by rewrite fold_sum_lengths.
  - intros r1 r2 r3 H1 H2 H3. split; [|done].
    unfold make_summary. cbn [total_characters fold_left]. rewrite H1, H2, H3.
    by vm_compute.
Qed.

(** C2 at the URL [https://example.org/ar/psut.edu.jo].  The scope test
    of the source's configuration accepts it, although its host is
    [example.org], which does not contain the domain; on the site whose
    root links to it, the run fetches it and records its page.  (A URL
    that fails the test is returned from at once: nothing is claimed,
    fetched or logged.) *)
Theorem foreign_host_is_crawled :
  in_scope psut foreign_url = true /\
  host_of foreign_url = "example.org" /\
  str_in (domain psut) (host_of foreign_url) = false /\
  (exists st,
      crawl_outcome psut foreign_site = Some (Normal, st) /\
      fetched (log st) = [site_a; foreign_url] /\
      map url (scraped_data st) = [site_a; foreign_url]) /\
  (forall cfg arun fuel u d st,
      in_scope cfg u = false ->
      crawl_page_outcome cfg arun (S fuel) u d st = Some (Normal, st)).
Proof.
  split_and!; [by vm_compute..| |].
  - eexists. split; [vm_compute; reflexivity|]. by vm_compute.
  - intros cfg arun fuel u d st H. cbn [crawl_page_outcome].
    unfold crawl_page_body. by rewrite pruned_out_of_scope.
Qed.

(** C9.  The rule that collapses three or more line feeds into two and
    the rule that collapses a run of spaces into one space are each
    idempotent: on every text, applying the rule to its own output gives
    that output again. *)
Theorem collapse_rules_idempotent (s : string) :
  collapse_newlines (collapse_newlines s) = collapse_newlines s /\
  collapse_spaces (collapse_spaces s) = collapse_spaces s.
Proof.
  unfold collapse_newlines, collapse_spaces, Re.sub.
  rewrite !list_ascii_of_string_of_list_ascii.
  split; f_equal.
  - apply (squeeze_idempotent nl 3 2); [lia|done].
  - apply (squeeze_idempotent sp 1 1); [lia|done].
Qed.


(** * Further properties of the traversal *)

Section Traversal.

Variable cfg : config.
Variable arun : string -> fetch_outcome.

Lemma fetched_emit e st :
  fetched (log (emit e st))
  = fetched (log st) ++ match e with Arun u => [u] | _ => [] end.
Proof. apply fetched_snoc. Qed.

Lemma fetched_claim u st : fetched (log (claim u st)) = fetched (log st).
Proof. simpl. by rewrite fetched_snoc, app_nil_r. Qed.

Lemma fetched_save page st : fetched (log (save page st)) = fetched (log st).
Proof. simpl. by rewrite fetched_snoc, app_nil_r. Qed.

Lemma fetched_finish e st : fetched (log (finish e st)) = fetched (log st).
Proof. destruct e; simpl; try done. by rewrite fetched_snoc, app_nil_r. Qed.

Lemma scraped_finish e st : scraped_data (finish e st) = scraped_data st.
Proof. by destruct e. Qed.

Lemma visited_finish e st : visited_urls (finish e st) = visited_urls st.
Proof. by destruct e. Qed.

(** What a call adds to the records is what its fetches keep, in the
    order of the fetches. *)
Lemma visits_kept u d st e st' :
  visits cfg arun u d st e st' ->
  exists new,
    fetched (log st') = fetched (log st) ++ new /\
    map entry (scraped_data st')
    = map entry (scraped_data st) ++ omap (kept cfg arun) new.
Proof.
  revert u d st e st'.
  apply (visits_mut cfg arun
    (fun _ _ st _ st' => exists new,
       fetched (log st') = fetched (log st) ++ new /\
       map entry (scraped_data st')
       = map entry (scraped_data st) ++ omap (kept cfg arun) new)
    (fun _ _ st _ st' => exists new,
       fetched (log st') = fetched (log st) ++ new /\
       map entry (scraped_data st')
       = map entry (scraped_data st) ++ omap (kept cfg arun) new)).
  - intros u d st _. exists []. by rewrite !app_nil_r.
  - intros u d st _ Ha. exists [u].
    rewrite !fetched_emit, fetched_claim, app_nil_r. split; [done|].
    simpl. unfold kept. by rewrite Ha, app_nil_r.
  - intros u d st _ Ha. exists [u].
    rewrite !fetched_emit, fetched_claim. split; [done|].
    simpl. unfold kept. by rewrite Ha, app_nil_r.
  - intros u d st result _ Ha Ht. exists [u].
    rewrite !fetched_emit, fetched_claim, app_nil_r. split; [done|].
    simpl. unfold kept. by rewrite Ha, Ht, app_nil_r.
  - intros u d st result text _ Ha Ht Hlen. exists [u].
    rewrite !fetched_emit, fetched_claim. split; [done|].
    simpl. unfold kept. by rewrite Ha, Ht, Hlen, app_nil_r.
  - intros u d st result text e st' _ Ha Ht Hlen _ (new & Hf & Hr).
    exists (u :: new).
    rewrite fetched_finish, scraped_finish, Hf, Hr.
    rewrite fetched_save, fetched_emit, fetched_claim.
    split; [by rewrite <- app_assoc|].
    simpl. rewrite map_app, <- app_assoc. simpl.
    unfold kept at 2. by rewrite Ha, Ht, Hlen.
  - intros d st. exists []. by rewrite !app_nil_r.
  - auto.
  - intros d l ls st _ _. exists []. by rewrite !app_nil_r.
  - auto.
  - intros d l ls st full st1 e st' _ _ _ _ (new1 & Hf1 & Hr1) _ (new2 & Hf2 & Hr2).
    exists (new1 ++ new2).
    rewrite Hf2, Hf1, Hr2, Hr1, fetched_emit, app_nil_r, omap_app.
    simpl. by rewrite !app_assoc.
  - intros d l ls st full st1 _ _ _ _ (new1 & Hf1 & Hr1).
    exists new1. by rewrite Hf1, Hr1, fetched_emit, app_nil_r.
Qed.

End Traversal.

(** X1.  The records of a run are exactly what its fetches keep, in the
    order of the fetches: the list of the URLs and contents of the
    records is the list of the fetched URLs, filtered down to the pages
    fetched with success, with a text whose cleaned and stripped form is
    longer than the threshold, each with its cleaned text. *)
Theorem records_are_kept_fetches (cfg : config) (arun : string -> fetch_outcome) :
  exists st,
    crawl cfg arun = Some st /\
    map (fun r => (url r, content r)) (scraped_data st)
    = omap (kept cfg arun) (fetched (log st)).
Proof.
  destruct (crawl_coherent cfg arun) as (st & Hrun & _ & e & Hv).
  exists st. split; [done|].
  destruct (visits_kept cfg arun _ _ _ _ _ Hv) as (new & Hf & Hr).
  simpl in Hf, Hr. rewrite Hf. exact Hr.
Qed.

(** X2.  A run never fetches, and never records, a URL outside the
    scope: every fetched URL and every URL of a record carries the
    domain string and the path marker. *)
Theorem fetches_stay_in_scope (cfg : config) (arun : string -> fetch_outcome) :
  exists st,
    crawl cfg arun = Some st /\
    (forall u, u ∈ fetched (log st) ->
       occurs_in (domain cfg) u /\ occurs_in (path_marker cfg) u) /\
    (forall r, r ∈ scraped_data st ->
       occurs_in (domain cfg) (url r) /\ occurs_in (path_marker cfg) (url r)).
Proof.
  destruct (crawl_coherent cfg arun) as (st & Hrun & Hst & _).
  exists st. split; [done|].
  assert (forall u, u ∈ visited_urls st ->
            occurs_in (domain cfg) u /\ occurs_in (path_marker cfg) u) as Hscope.
  { intros u Hu. apply (coh_scope _ _ Hst) in Hu.
    unfold in_scope in Hu. apply andb_true_iff in Hu as [H1 H2].
    by rewrite <- !str_in_occurs. }
  split.
  - intros u Hu. by apply Hscope, (coh_fetched _ _ Hst).
  - intros r Hr. apply Hscope. by destruct (coh_claimed _ _ Hst r Hr).
Qed.

Section Pacing.

Variable cfg : config.
Variable arun : string -> fetch_outcome.

Lemma paced_weaken b l : paced_from false l = true -> paced_from b l = true.
Proof. destruct l as [|[] l]; destruct b; done. Qed.

Lemma paced_app b l1 l2 :
  paced_from b l1 = true -> paced_from false l2 = true ->
  paced_from b (l1 ++ l2) = true.
Proof.
  revert b. induction l1 as [|e l1 IH]; intros b H1 H2.
  - by apply paced_weaken.
  - destruct e; simpl in *; try by apply IH.
    apply andb_true_iff in H1 as [-> H1]. by apply IH.
Qed.

(** In a paced log, what stands before a progress line ends with a
    sleep. *)
Lemma paced_cut b pre n u post :
  paced_from b (pre ++ Crawling n u :: post) = true ->
  (pre = [] /\ b = true) \/ exists pre', pre = pre' ++ [Sleep].
Proof.
  revert b. induction pre as [|e pre IH]; intros b H.
  - left. simpl in H. apply andb_true_iff in H as [-> _]. done.
  - right.
    assert (exists b', paced_from b' (pre ++ Crawling n u :: post) = true
                       /\ (b' = true -> e = Sleep)) as (b' & H' & Hb').
    { destruct e; simpl in H; try (by exists false).
      - apply andb_true_iff in H as [_ H]. by exists false.
      - by exists true. }
    destruct (IH b' H') as [[-> Hb]|[pre' ->]].
    + exists []. by rewrite (Hb' Hb).
    + by exists (e :: pre').
Qed.

Lemma sleeps_app l1 l2 : sleeps (l1 ++ l2) = sleeps l1 + sleeps l2.
Proof. unfold sleeps. by rewrite omap_app, length_app. Qed.

Lemma sleeps_cons e l :
  sleeps (e :: l) = match e with Sleep => 1 | _ => 0 end + sleeps l.
Proof. by destruct e. Qed.

Lemma fetched_app l1 l2 : fetched (l1 ++ l2) = fetched l1 ++ fetched l2.
Proof. unfold fetched. by rewrite omap_app. Qed.

Lemma log_finish e st :
  log (finish e st)
  = log st ++ match e with Raised => [Error] | Normal | Interrupted => [] end.
Proof. destruct e; simpl; try done; by rewrite app_nil_r. Qed.

(** The events of a call start with a progress line or with none and
    are paced from there on; the events of a link loop are paced; and
    there is a sleep for every fetch but the first of a call. *)
Lemma visits_paced u d st e st' :
  visits cfg arun u d st e st' ->
  exists evs,
    log st' = log st ++ evs /\ paced_from true evs = true /\
    length (fetched evs) <= 1 + sleeps evs.
Proof.
  revert u d st e st'.
  apply (visits_mut cfg arun
    (fun _ _ st _ st' => exists evs,
       log st' = log st ++ evs /\ paced_from true evs = true /\
       length (fetched evs) <= 1 + sleeps evs)
    (fun _ _ st _ st' => exists evs,
       log st' = log st ++ evs /\ paced_from false evs = true /\
       length (fetched evs) <= sleeps evs)).
  - intros u d st _. exists []. split_and!; [by rewrite app_nil_r|done|simpl; lia].
  - intros u d st _ _. eexists [_; _; _]. simpl. rewrite <- !app_assoc.
    split_and!; [reflexivity|done|simpl; lia].
  - intros u d st _ _. eexists [_; _]. simpl. rewrite <- !app_assoc.
    split_and!; [reflexivity|done|simpl; lia].
  - intros u d st result _ _ _. eexists [_; _; _]. simpl. rewrite <- !app_assoc.
    split_and!; [reflexivity|done|simpl; lia].
  - intros u d st result text _ _ _ _. eexists [_; _]. simpl. rewrite <- !app_assoc.
    split_and!; [reflexivity|done|simpl; lia].
  - intros u d st result text e st' _ _ _ _ _ (evs & Hlog & Hp & Hn).
    eexists ([_; _; _] ++ evs ++ _).
    rewrite log_finish, Hlog. simpl. rewrite <- !app_assoc. simpl.
    split; [done|]. split.
    + apply paced_app; [done|by destruct e].
    + rewrite !sleeps_cons, sleeps_app, fetched_app.
      cbn [length]. rewrite length_app.
      destruct e; simpl; lia.
  - intros d st. exists []. split_and!; [by rewrite app_nil_r|done|simpl; lia].
  - auto.
  - intros d l ls st _ _. exists []. split_and!; [by rewrite app_nil_r|done|simpl; lia].
  - auto.
  - intros d l ls st full st1 e st' _ _ _ _ (evs1 & Hlog1 & Hp1 & Hn1)
      _ (evs2 & Hlog2 & Hp2 & Hn2).
    exists (Sleep :: evs1 ++ evs2).
    rewrite Hlog2, Hlog1. simpl. rewrite <- !app_assoc. simpl.
    split; [done|]. split.
    + by apply paced_app.
    + rewrite sleeps_cons, sleeps_app.
      change (fetched (Sleep :: evs1 ++ evs2)) with (fetched (evs1 ++ evs2)).
      rewrite fetched_app, length_app. lia.
  - intros d l ls st full st1 _ _ _ _ (evs1 & Hlog1 & Hp1 & Hn1).
    exists (Sleep :: evs1).
    rewrite Hlog1. simpl. rewrite <- !app_assoc. simpl.
    split; [done|]. split; [done|].
    rewrite sleeps_cons.
    change (fetched (Sleep :: evs1)) with (fetched evs1). lia.
Qed.

End Pacing.

(** X3.  The run sleeps before every fetch but the first: in the log of
    a run, a progress line is the first event or comes right after a
    sleep, and the fetch follows its progress line (C3); so the run
    sleeps at least once for every fetch after the first. *)
Theorem sleeps_between_fetches (cfg : config) (arun : string -> fetch_outcome) :
  exists st,
    crawl cfg arun = Some st /\
    (forall pre n u post,
        log st = pre ++ Crawling n u :: post ->
        pre = [] \/ exists pre', pre = pre' ++ [Sleep]) /\
    length (fetched (log st)) <= 1 + sleeps (log st).
Proof.
  destruct (crawl_coherent cfg arun) as (st & Hrun & _ & e & Hv).
  exists st. split; [done|].
  destruct (visits_paced cfg arun _ _ _ _ _ Hv) as (evs & Hlog & Hp & Hn).
  simpl in Hlog. subst evs. split; [|done].
  intros pre n u post Heq. rewrite Heq in Hp.
  destruct (paced_cut _ _ _ _ _ Hp) as [[-> _]|Hpre]; [by left|by right].
Qed.

Section Progress.

Variable cfg : config.
Variable arun : string -> fetch_outcome.

Lemma counts_snoc l e :
  counts (l ++ [e]) = counts l ++ match e with Crawling n _ => [n] | _ => [] end.
Proof. unfold counts. rewrite omap_app. by destruct e. Qed.

Lemma counted_emit e st :
  match e with Crawling _ _ => False | _ => True end ->
  counted st -> counted (emit e st).
Proof.
  unfold counted. simpl. intros He H. rewrite counts_snoc, H.
  destruct e; try done; by rewrite app_nil_r.
Qed.

Lemma counted_claim u d st :
  pruned cfg u d st = false -> counted st -> counted (claim u st).
Proof.
  intros Hp. apply pruned_false in Hp as (_ & _ & Hnew & _).
  unfold counted. simpl. intros H.
  rewrite counts_snoc, H, size_claim by done. by rewrite seq_S.
Qed.

Lemma counted_save page st : counted st -> counted (save page st).
Proof.
  unfold counted. simpl. intros H. by rewrite counts_snoc, H, app_nil_r.
Qed.

Lemma visits_counted u d st e st' :
  visits cfg arun u d st e st' -> counted st -> counted st'.
Proof.
  revert u d st e st'.
  apply (visits_mut cfg arun
    (fun _ _ st _ st' => counted st -> counted st')
    (fun _ _ st e st' => counted st -> counted (finish e st'))).
  - auto.
  - intros u d st Hp _ H. do 2 (apply counted_emit; [done|]).
    by eapply counted_claim.
  - intros u d st Hp _ H. apply counted_emit; [done|].
    by eapply counted_claim.
  - intros u d st result Hp _ _ H. do 2 (apply counted_emit; [done|]).
    by eapply counted_claim.
  - intros u d st result text Hp _ _ _ H. apply counted_emit; [done|].
    by eapply counted_claim.
  - intros u d st result text e st' Hp _ _ _ _ IH H.
    apply IH, counted_save, counted_emit; [done|]. by eapply counted_claim.
  - auto.
  - auto.
  - intros d l ls st _ _ H. by apply counted_emit.
  - auto.
  - intros d l ls st full st1 e st' _ _ _ _ IHv _ IHe H.
    apply IHe, IHv. by apply counted_emit.
  - intros d l ls st full st1 _ _ _ _ IHv H.
    apply IHv. by apply counted_emit.
Qed.

Lemma size_of_listing (l : list string) (X : gset string) :
  NoDup l -> (forall x, x ∈ l <-> x ∈ X) -> size X = length l.
Proof.
  intros Hnd Hl. rewrite <- (size_list_to_set (C := gset string) l Hnd).
  f_equal. apply set_eq. intros x. by rewrite elem_of_list_to_set, Hl.
Qed.

End Progress.

(** X4.  The progress lines of a run count the claims: the numbers they
    show are 1, 2, ..., n in this order, where n is the number of URLs
    fetched, which is the size of the visited set and at most the page
    cap. *)
Theorem progress_lines_count_claims (cfg : config) (arun : string -> fetch_outcome) :
  exists st,
    crawl cfg arun = Some st /\
    counts (log st) = seq 1 (length (fetched (log st))) /\
    length (fetched (log st)) = size (visited_urls st) /\
    length (fetched (log st)) <= max_pages cfg.
Proof.
  destruct (crawl_coherent cfg arun) as (st & Hrun & Hst & e & Hv).
  exists st. split; [done|].
  assert (size (visited_urls st) = length (fetched (log st))) as Hsize.
  { apply size_of_listing; [apply Hst|]. intros x. apply (coh_fetched _ _ Hst). }
  rewrite <- Hsize. split_and!; [|done|apply Hst].
  apply (visits_counted cfg arun _ _ _ _ _ Hv).
  unfold counted, initial. cbn [visited_urls log]. by rewrite size_empty.
Qed.

Section Closure.

Variable cfg : config.
Variable arun : string -> fetch_outcome.

Abbreviation followed := (links_followed cfg arun).

Lemma followed_mono st st' r :
  visited_urls st ⊆ visited_urls st' ->
  followed st r -> followed st' r.
Proof.
  intros Hsub H Hd result Ha Hres l w Hl Hne Hj Hs.
  apply Hsub. by eapply H.
Qed.

Lemma extends_size st st' :
  extends st st' -> size (visited_urls st) <= size (visited_urls st').
Proof. intros [H _ _]. by apply subseteq_size. Qed.

(** While the page cap is not reached, a call that returns has visited
    its URL when the depth and the scope allow, and has followed every
    link of the records it added; a link loop that ends normally has
    visited every link. *)
Lemma visits_closed u d st e st' :
  visits cfg arun u d st e st' ->
  e = Normal ->
  size (visited_urls st') < max_pages cfg ->
  (d <= max_depth cfg -> in_scope cfg u = true -> u ∈ visited_urls st') /\
  (forall r, r ∈ scraped_data st' -> r ∈ scraped_data st \/ followed st' r).
Proof.
  revert u d st e st'.
  apply (visits_mut cfg arun
    (fun u d st e st' =>
       e = Normal ->
       size (visited_urls st') < max_pages cfg ->
       (d <= max_depth cfg -> in_scope cfg u = true -> u ∈ visited_urls st') /\
       (forall r, r ∈ scraped_data st' ->
          r ∈ scraped_data st \/ followed st' r))
    (fun d ls st e st' =>
       e <> Interrupted ->
       size (visited_urls st') < max_pages cfg ->
       (forall r, r ∈ scraped_data st' ->
          r ∈ scraped_data st \/ followed st' r) /\
       ((forall l, l ∈ ls -> Url.nonempty (link_url l) = true ->
           urljoin cfg (base_url cfg) (link_url l) <> None) ->
        d < max_depth cfg ->
        forall l w, l ∈ ls -> Url.nonempty (link_url l) = true ->
          urljoin cfg (base_url cfg) (link_url l) = Some w ->
          in_scope cfg w = true -> w ∈ visited_urls st'))).
  - intros u d st Hp _ Hsize. split; [|by left].
    intros Hd Hs. unfold pruned in Hp.
    apply Nat.ltb_ge in Hd. apply Nat.leb_gt in Hsize.
    rewrite Hd, Hsize, Hs in Hp. simpl in Hp.
    rewrite orb_false_r in Hp. by apply bool_decide_eq_true in Hp.
  - intros u d st _ _ _ _. split; [|by left].
    intros _ _. simpl. apply elem_of_union. left. by apply elem_of_singleton.
  - done.
  - intros u d st result _ _ _ _ _. split; [|by left].
    intros _ _. simpl. apply elem_of_union. left. by apply elem_of_singleton.
  - intros u d st result text _ _ _ _ _ _. split; [|by left].
    intros _ _. simpl. apply elem_of_union. left. by apply elem_of_singleton.
  - intros u d st result text e st' Hp Ha _ _ He IH Hn Hsize.
    assert (e <> Interrupted) as Hni by (by destruct e).
    rewrite visited_finish in Hsize.
    apply expands_extends in He as Hext. destruct (IH Hni Hsize) as [IHr IHl].
    split.
    + intros _ _. rewrite visited_finish. apply (ext_visited _ _ Hext).
      simpl. apply elem_of_union. left. by apply elem_of_singleton.
    + intros r Hr. rewrite scraped_finish in Hr.
      destruct (IHr r Hr) as [Hin|Hf].
      * simpl in Hin. apply elem_of_app in Hin as [Hin|Hin]; [by left|].
        apply list_elem_of_singleton in Hin as ->. right.
        intros Hd result' Ha' Hres l w Hl Hne Hj Hs. simpl in *.
        rewrite Ha in Ha'. injection Ha' as <-.
        rewrite visited_finish. eapply IHl; eauto.
      * right. intros Hd result' Ha' Hres l w Hl Hne Hj Hs.
        rewrite visited_finish. by eapply Hf.
  - intros d st _ _. split; [by left|]. intros _ _ l w Hl. by apply elem_of_nil in Hl.
  - intros d l ls st e st' Hno _ IH Hni Hsize. destruct (IH Hni Hsize) as [IHr IHl].
    split; [done|]. intros Hres Hd l' w Hl' Hne Hj Hs.
    apply elem_of_cons in Hl' as [->|Hl']; [congruence|].
    eapply IHl; eauto. intros l0 Hl0. apply Hres. by right.
  - intros d l ls st Hne Hj _ _. split; [by left|].
    intros Hres. exfalso. eapply Hres; [by left|done..].
  - intros d l ls st full e st' Hne Hj Hin He IH Hni Hsize.
    destruct (IH Hni Hsize) as [IHr IHl]. split; [done|].
    intros Hres Hd l' w Hl' Hne' Hj' Hs.
    apply elem_of_cons in Hl' as [->|Hl'].
    + rewrite Hj in Hj'. injection Hj' as <-.
      apply expands_extends in He. by apply (ext_visited _ _ He).
    + eapply IHl; eauto. intros l0 Hl0. apply Hres. by right.
  - intros d l ls st full st1 e st' Hne Hj Hnew Hv IHv He IHe Hni Hsize.
    apply visits_extends in Hv as Hext1. apply expands_extends in He as Hext2.
    pose proof (extends_size _ _ Hext2) as Hsize2.
    destruct IHv as [IHu IHr1]; [done|lia|]. destruct (IHe Hni Hsize) as [IHr2 IHl].
    split.
    + intros r Hr. destruct (IHr2 r Hr) as [Hin|Hf]; [|by right].
      destruct (IHr1 r Hin) as [Hin'|Hf]; [by left|].
      right. eapply followed_mono; [apply Hext2|done].
    + intros Hres Hd l' w Hl' Hne' Hj' Hs.
      apply elem_of_cons in Hl' as [->|Hl'].
      * rewrite Hj in Hj'. injection Hj' as <-.
        apply (ext_visited _ _ Hext2), IHu; [lia|done].
      * eapply IHl; eauto. intros l0 Hl0. apply Hres. by right.
  - done.
Qed.

End Closure.

(** X5.  A run that returns below the page cap has followed every link
    it could: for every record above the depth cap whose page has only
    links that the resolver of the run resolves, every non-empty link of
    the page that resolves to a URL in scope leads to a visited URL.
    (A run that an exception of the fetcher ends has left links
    behind.) *)
Theorem links_followed_below_cap (cfg : config) (arun : string -> fetch_outcome) :
  exists e st,
    crawl_outcome cfg arun = Some (e, st) /\
    (e = Normal ->
     size (visited_urls st) < max_pages cfg ->
     forall r result l w,
       r ∈ scraped_data st -> depth r < max_depth cfg ->
       arun (url r) = Returns result -> resolvable cfg result ->
       l ∈ internal_links result ->
       Url.nonempty (link_url l) = true ->
       urljoin cfg (base_url cfg) (link_url l) = Some w ->
       in_scope cfg w = true ->
       w ∈ visited_urls st).
Proof.
  destruct (crawl_outcome_coherent cfg arun) as (e & st & Hrun & _ & _ & Hv).
  exists e, st. split; [done|].
  intros He Hsize r result l w Hr Hd Ha Hres Hl Hne Hj Hs.
  destruct (visits_closed cfg arun _ _ _ _ _ Hv He Hsize) as [_ Hclosed].
  destruct (Hclosed r Hr) as [Hin|Hf]; [by apply elem_of_nil in Hin|].
  by eapply Hf.
Qed.

(** * Further properties of [clean_content] *)

Lemma string_list_length (s : string) :
  length (list_ascii_of_string s) = String.length s.
Proof. induction s as [|c s IH]; simpl; [done|]. by rewrite IH. Qed.

Lemma list_string_length (l : list ascii) :
  String.length (string_of_list_ascii l) = length l.
Proof. induction l as [|c l IH]; simpl; [done|]. by rewrite IH. Qed.

Lemma list_of_append (s t : string) :
  list_ascii_of_string (s +:+ t) = list_ascii_of_string s ++ list_ascii_of_string t.
Proof. induction s as [|c s IH]; [done|]. cbn. by rewrite <- IH. Qed.

Lemma strip_as_list (s : string) :
  strip s = string_of_list_ascii (strip_list (list_ascii_of_string s)).
Proof. done. Qed.

Lemma lstrip_head l :
  match lstrip_list l with [] => True | c :: _ => is_space c = false end.
Proof.
  induction l as [|c l IH]; simpl; [done|].
  destruct (is_space c) eqn:Hc; [done|]. by rewrite Hc.
Qed.

Lemma lstrip_fixed l :
  match l with [] => True | c :: _ => is_space c = false end ->
  lstrip_list l = l.
Proof. destruct l as [|c l]; simpl; [done|]. by intros ->. Qed.

Lemma lstrip_split l :
  exists spaces, l = spaces ++ lstrip_list l.
Proof.
  induction l as [|c l [spaces IH]]; simpl; [by exists []|].
  destruct (is_space c); [|by exists []].
  exists (c :: spaces). simpl. by rewrite <- IH.
Qed.

Lemma lstrip_shorter l : length (lstrip_list l) <= length l.
Proof.
  destruct (lstrip_split l) as [spaces H].
  rewrite H at 2. rewrite length_app. lia.
Qed.

(** What [strip] returns sits inside its argument. *)
Lemma strip_list_split l :
  exists front back, l = front ++ strip_list l ++ back.
Proof.
  unfold strip_list.
  destruct (lstrip_split l) as [front Hfront].
  destruct (lstrip_split (rev (lstrip_list l))) as [back Hback].
  exists front, (rev back). rewrite Hfront at 1. f_equal.
  rewrite <- rev_app_distr, <- Hback. by rewrite rev_involutive.
Qed.

(** What [strip] returns starts and ends with no white space. *)
Lemma strip_list_ends l :
  match strip_list l with [] => True | c :: _ => is_space c = false end /\
  match rev (strip_list l) with [] => True | c :: _ => is_space c = false end.
Proof.
  unfold strip_list. rewrite rev_involutive. split; [|apply lstrip_head].
  destruct (lstrip_split (rev (lstrip_list l))) as [back Hback].
  apply (f_equal (@rev ascii)) in Hback.
  rewrite rev_involutive, rev_app_distr in Hback.
  pose proof (lstrip_head l) as Hhead. rewrite Hback in Hhead.
  by destruct (rev (lstrip_list (rev (lstrip_list l)))).
Qed.

Lemma strip_list_fixed l :
  match l with [] => True | c :: _ => is_space c = false end ->
  match rev l with [] => True | c :: _ => is_space c = false end ->
  strip_list l = l.
Proof.
  intros H1 H2. unfold strip_list.
  rewrite (lstrip_fixed l H1), (lstrip_fixed _ H2). apply rev_involutive.
Qed.

Lemma strip_list_idempotent l : strip_list (strip_list l) = strip_list l.
Proof. destruct (strip_list_ends l). by apply strip_list_fixed. Qed.

Lemma strip_idempotent (s : string) : strip (strip s) = strip s.
Proof.
  rewrite !strip_as_list, list_ascii_of_string_of_list_ascii.
  by rewrite strip_list_idempotent.
Qed.

Lemma strip_trimmed (s : string) : trimmed (strip s).
Proof.
  destruct (strip_list_ends (list_ascii_of_string s)) as [H1 H2].
  rewrite strip_as_list. split.
  - intros c rest Heq.
    apply (f_equal list_ascii_of_string) in Heq.
    rewrite list_ascii_of_string_of_list_ascii in Heq. simpl in Heq.
    by rewrite Heq in H1.
  - intros front c Heq.
    apply (f_equal list_ascii_of_string) in Heq.
    rewrite list_ascii_of_string_of_list_ascii, list_of_append in Heq.
    simpl in Heq. rewrite Heq, rev_app_distr in H2. done.
Qed.

(** X6.  What [clean_content] returns has no white space at either end,
    so stripping it again changes nothing: the [strip] in the length
    test of [crawl_page] is the identity on the cleaned text, and the
    test compares the length of the text that is saved. *)
Theorem cleaned_text_is_trimmed (markdown_text : string) :
  trimmed (clean_content markdown_text) /\
  strip (clean_content markdown_text) = clean_content markdown_text.
Proof.
  unfold clean_content. split; [apply strip_trimmed|apply strip_idempotent].
Qed.

Section Engine.

Lemma strip_prefix_app text s s' :
  Re.strip_prefix text s = Some s' -> s = list_ascii_of_string text ++ s'.
Proof.
  revert s. induction text as [|a text IH]; intros s H; simpl in H.
  - by injection H as ->.
  - destruct s as [|c s]; [done|].
    destruct (Ascii.eqb a c) eqn:Hac; [|done].
    apply Ascii.eqb_eq in Hac as ->. simpl. f_equal. by apply IH.
Qed.

Lemma star_lazy_reads cls k :
  reads_prefix k -> reads_more (Re.star_lazy cls k).
Proof.
  intros Hk s. induction s as [|c s IH]; intros m g rest H; simpl in H.
  - destruct (k []) as [[g0 rest0]|] eqn:Hk0; [|done].
    injection H as <- <- <-. by apply Hk in Hk0.
  - destruct (k (c :: s)) as [[g0 rest0]|] eqn:Hk0.
    + injection H as <- <- <-. by apply Hk in Hk0.
    + destruct (Re.class_matches cls c); [|done].
      destruct (Re.star_lazy cls k s) as [[m1 [g1 rest1]]|] eqn:Hs; [|done].
      injection H as <- <- <-.
      destruct (IH _ _ _ eq_refl) as (m' & -> & Hlen). by exists m'.
Qed.

Lemma star_greedy_reads cls k :
  reads_prefix k -> reads_more (Re.star_greedy cls k).
Proof.
  intros Hk s.
  assert (forall s m g rest,
            option_map (pair []) (k s) = Some (m, (g, rest)) ->
            exists m', s = m ++ m' ++ rest /\ length g <= length m') as Hend.
  { intros s0 m g rest H. destruct (k s0) as [[g0 rest0]|] eqn:Hk0; [|done].
    injection H as <- <- <-. by apply Hk in Hk0. }
  induction s as [|c s IH]; intros m g rest H; simpl in H; [by apply Hend|].
  destruct (Re.class_matches cls c); [|by apply Hend].
  destruct (Re.star_greedy cls k s) as [[m1 [g1 rest1]]|] eqn:Hs; [|by apply Hend].
  injection H as <- <- <-.
  destruct (IH _ _ _ eq_refl) as (m' & -> & Hlen). by exists m'.
Qed.

Lemma at_least_reads cls min star :
  reads_more star -> reads_more (Re.at_least cls min star).
Proof.
  intros Hstar. induction min as [|min IH]; intros s m g rest H; simpl in H.
  - by apply Hstar.
  - destruct s as [|c s]; [done|].
    destruct (Re.class_matches cls c); [|done].
    destruct (Re.at_least cls min star s) as [[m1 [g1 rest1]]|] eqn:Hs; [|done].
    injection H as <- <- <-.
    destruct (IH _ _ _ _ Hs) as (m' & -> & Hlen). by exists m'.
Qed.

(** A match reads a prefix of the input, and its group is no longer
    than what was read. *)
Lemma match_items_reads pat : reads_prefix (Re.match_items pat).
Proof.
  induction pat as [|[text|cls min greedy capture] pat IH]; intros s g rest H;
    simpl in H.
  - injection H as <- <-. by exists [].
  - destruct (Re.strip_prefix text s) as [s'|] eqn:Hp; [|done].
    apply strip_prefix_app in Hp as ->.
    destruct (IH _ _ _ H) as (m & -> & Hlen).
    exists (list_ascii_of_string text ++ m).
    rewrite length_app, <- app_assoc. split; [done|lia].
  - match type of H with
    | match ?a with _ => _ end = _ => destruct a as [[m [g1 rest1]]|] eqn:Hrep; [|done]
    end.
    injection H as <- <-.
    apply at_least_reads in Hrep as (m' & -> & Hlen).
    + exists (m ++ m'). rewrite length_app, <- app_assoc. split; [done|].
      destruct capture; lia.
    + destruct greedy; [by apply star_greedy_reads|by apply star_lazy_reads].
Qed.

Variable pat : Re.pattern.
Variable repl : list Re.repl_item.

Lemma sub_from_drop j s :
  Re.sub_from pat repl j s = Re.sub_from pat repl 0 (drop j s).
Proof.
  revert j. induction s as [|x s IH]; intros [|j]; try done.
  cbn [Re.sub_from drop]. apply IH.
Qed.

(** A substitution whose replacement is never longer than the match
    never lengthens the text. *)
Lemma sub_from_shorter :
  (forall s g rest, Re.match_items pat s = Some (g, rest) ->
     length (Re.expand repl g) <= length s - length rest) ->
  forall s j, length (Re.sub_from pat repl j s) <= length s - j.
Proof.
  intros Hrepl s. induction s as [|c s IH]; intros j; [simpl; lia|].
  destruct j as [|j]; cbn [Re.sub_from].
  - destruct (Re.match_items pat (c :: s)) as [[g rest]|] eqn:Hm.
    + apply Hrepl in Hm as Hlen.
      destruct (length (c :: s) - length rest) as [|n] eqn:Hn.
      * simpl. specialize (IH 0). lia.
      * rewrite length_app. specialize (IH n). simpl in *. lia.
    + simpl. specialize (IH 0). lia.
  - specialize (IH j). simpl. lia.
Qed.

(** A substitution whose pattern matches nowhere in the text leaves the
    text as it is. *)
Lemma sub_from_no_match s :
  (forall front back, s = front ++ back -> back <> [] ->
     Re.match_items pat back = None) ->
  Re.sub_from pat repl 0 s = s.
Proof.
  induction s as [|c s IH]; intros H; [done|].
  cbn [Re.sub_from]. rewrite (H [] (c :: s)) by done.
  f_equal. apply IH. intros front back -> Hne. by apply (H (c :: front)).
Qed.

End Engine.

Lemma sub_shorter pat repl (s : string) :
  (forall l g rest, Re.match_items pat l = Some (g, rest) ->
     length (Re.expand repl g) <= length l - length rest) ->
  String.length (Re.sub pat repl s) <= String.length s.
Proof.
  intros H. unfold Re.sub. rewrite list_string_length, <- string_list_length.
  pose proof (sub_from_shorter pat repl H (list_ascii_of_string s) 0). lia.
Qed.

Lemma run_bound c (l : list ascii) : run c l <= length l.
Proof.
  induction l as [|x l IH]; simpl; [done|]. destruct (Ascii.eqb x c); lia.
Qed.

Lemma squeeze_shorter c min repl (s : string) :
  (forall g, length (Re.expand repl g) <= min) ->
  String.length (Re.sub (run_pattern c min) repl s) <= String.length s.
Proof.
  intros Hrepl. apply sub_shorter. intros l g rest Hm.
  rewrite match_run in Hm.
  destruct (min <=? run c l) eqn:Hrun; [|done]. injection Hm as <- <-.
  apply Nat.leb_le in Hrun. pose proof (run_bound c l).
  rewrite length_drop. specialize (Hrepl []). lia.
Qed.

Lemma strip_shorter (s : string) : String.length (strip s) <= String.length s.
Proof.
  rewrite strip_as_list, list_string_length, <- string_list_length.
  unfold strip_list. rewrite length_rev.
  etrans; [apply lstrip_shorter|]. rewrite length_rev. apply lstrip_shorter.
Qed.

Lemma collapse_newlines_shorter t :
  String.length (collapse_newlines t) <= String.length t.
Proof. apply squeeze_shorter. intros g. simpl. lia. Qed.

Lemma remove_navigation_shorter t :
  String.length (remove_navigation t) <= String.length t.
Proof. apply sub_shorter. intros l g rest _. simpl. lia. Qed.

Lemma images_to_alt_shorter t :
  String.length (images_to_alt t) <= String.length t.
Proof.
  apply sub_shorter. intros l g rest Hm.
  apply match_items_reads in Hm as (m & -> & Hlen).
  simpl. rewrite app_nil_r, length_app. lia.
Qed.

Lemma remove_empty_links_shorter t :
  String.length (remove_empty_links t) <= String.length t.
Proof. apply sub_shorter. intros l g rest _. simpl. lia. Qed.

Lemma collapse_spaces_shorter t :
  String.length (collapse_spaces t) <= String.length t.
Proof. apply squeeze_shorter. intros g. simpl. lia. Qed.

Lemma clean_content_shorter t :
  String.length (clean_content t) <= String.length t.
Proof.
  unfold clean_content.
  etrans; [apply strip_shorter|].
  etrans; [apply collapse_spaces_shorter|].
  etrans; [apply remove_empty_links_shorter|].
  etrans; [apply images_to_alt_shorter|].
  etrans; [apply remove_navigation_shorter|].
  apply collapse_newlines_shorter.
Qed.

Lemma strip_clean_content t : strip (clean_content t) = clean_content t.
Proof. unfold clean_content. apply strip_idempotent. Qed.

(** X7.  Cleaning never lengthens a text: each of the five substitutions
    and the final strip returns a text no longer than its argument, and
    so does [clean_content]. *)
Theorem cleaning_never_lengthens (s : string) :
  String.length (collapse_newlines s) <= String.length s /\
  String.length (remove_navigation s) <= String.length s /\
  String.length (images_to_alt s) <= String.length s /\
  String.length (remove_empty_links s) <= String.length s /\
  String.length (collapse_spaces s) <= String.length s /\
  String.length (strip s) <= String.length s /\
  String.length (clean_content s) <= String.length s.
Proof.
  split_and!.
  - apply collapse_newlines_shorter.
  - apply remove_navigation_shorter.
  - apply images_to_alt_shorter.
  - apply remove_empty_links_shorter.
  - apply collapse_spaces_shorter.
  - apply strip_shorter.
  - apply clean_content_shorter.
Qed.

(** A record holds the cleaned text of a successful fetch of its URL. *)
Lemma visits_records_kept (cfg : config) (arun : string -> fetch_outcome) e st :
  visits cfg arun (base_url cfg) 0 initial e st ->
  forall r, r ∈ scraped_data st ->
    exists result text,
      arun (url r) = Returns result /\
      success result = true /\
      markdown result = Some text /\
      content r = clean_content text /\
      min_length cfg < String.length (content r) /\
      String.length (content r) <= String.length text.
Proof.
  intros Hv r Hr.
  destruct (visits_kept cfg arun _ _ _ _ _ Hv) as (new & Hf & Hk).
  simpl in Hk.
  assert (entry r ∈ omap (kept cfg arun) new) as Hin.
  { rewrite <- Hk. apply list_elem_of_fmap. by exists r. }
  apply list_elem_of_omap in Hin as (u & _ & Hkept).
  unfold kept in Hkept.
  destruct (arun u) as [| |result] eqn:Ha; [done..|].
  destruct (success result) eqn:Hs; [|done].
  destruct (markdown result) as [text|] eqn:Hmd; [|done].
  destruct text as [|c text]; [done|]. cbn [truthy] in Hkept.
  destruct (min_length cfg <? _) eqn:Hlen; [|done].
  injection Hkept as -> Hc. apply Nat.ltb_lt in Hlen.
  exists result, (String c text).
  rewrite <- Hc. rewrite strip_clean_content in Hlen.
  split_and!; [done..|].
  apply clean_content_shorter.
Qed.

(** X8.  Every record of a run holds the cleaned text of a successful
    fetch of its URL: the fetcher returned, for the URL of the record, a
    result with success and a text; the content of the record is
    [clean_content] of that text; it is longer than the threshold and no
    longer than the text it was cleaned from. *)
Theorem records_hold_cleaned_pages (cfg : config) (arun : string -> fetch_outcome) :
  exists st,
    crawl cfg arun = Some st /\
    forall r, r ∈ scraped_data st ->
      exists result text,
        arun (url r) = Returns result /\
        success result = true /\
        markdown result = Some text /\
        content r = clean_content text /\
        min_length cfg < String.length (content r) /\
        String.length (content r) <= String.length text.
Proof.
  destruct (crawl_coherent cfg arun) as (st & Hrun & _ & e & Hv).
  exists st. split; [done|]. by eapply visits_records_kept.
Qed.


Lemma sum_list_above {A} (f : A -> nat) (b : nat) (l : list A) :
  (forall x, x ∈ l -> b < f x) -> length l * (b + 1) <= sum_list (map f l).
Proof.
  induction l as [|x l IH]; intros H; simpl; [lia|].
  assert (b < f x) by (apply H; by left).
  assert (length l * (b + 1) <= sum_list (map f l)).
  { apply IH. intros y Hy. apply H. by right. }
  lia.
Qed.

(** X9.  The summary of the records of a run: it counts at most
    [max_pages] pages, lists as many URLs as it counts pages and no URL
    twice, and its character total is more than [min_length] times the
    number of pages, every page bringing more than [min_length]
    characters. *)
Theorem summary_of_a_run (cfg : config) (arun : string -> fetch_outcome) :
  exists st,
    crawl cfg arun = Some st /\
    total_pages (make_summary (scraped_data st)) <= max_pages cfg /\
    length (urls (make_summary (scraped_data st)))
    = total_pages (make_summary (scraped_data st)) /\
    NoDup (urls (make_summary (scraped_data st))) /\
    total_pages (make_summary (scraped_data st)) * (min_length cfg + 1)
    <= total_characters (make_summary (scraped_data st)).
Proof.
  destruct (crawl_coherent cfg arun) as (st & Hrun & Hst & e & Hv).
  exists st. split; [done|].
  pose proof (coherent_records cfg st Hst) as Hlen.
  unfold make_summary. cbn [total_pages urls total_characters].
  split_and!.
  - pose proof (coh_cap _ _ Hst). lia.
  - apply length_map.
  - apply Hst.
  - rewrite fold_sum_lengths. simpl. apply sum_list_above.
    intros r Hr.
    destruct (visits_records_kept cfg arun e st Hv r Hr)
      as (result & text & _ & _ & _ & _ & Hlong & _).
    done.
Qed.

Section Root.

Variable cfg : config.
Variable arun : string -> fetch_outcome.

(** A call that is not pruned claims its URL and fetches it first. *)
Lemma visits_starts u d st e st' :
  visits cfg arun u d st e st' -> pruned cfg u d st = false ->
  extends (emit (Arun u) (claim u st)) st'.
Proof.
  intros Hv Hp. inversion Hv; subst; try congruence.
  - apply extends_emit.
  - apply extends_refl.
  - apply extends_emit.
  - apply extends_refl.
  - eapply extends_trans; [|apply extends_finish].
    eapply extends_trans; [apply extends_save|].
    by eapply expands_extends.
Qed.

Lemma pruned_root :
  pruned cfg (base_url cfg) 0 initial
  = (max_pages cfg =? 0) || negb (in_scope cfg (base_url cfg)).
Proof.
  unfold pruned, initial. cbn [visited_urls].
  rewrite size_empty, bool_decide_eq_false_2 by apply not_elem_of_empty.
  cbn [Nat.ltb Nat.leb orb]. rewrite orb_false_r.
  by destruct (max_pages cfg).
Qed.

End Root.

(** X10.  The root decides whether a run does anything.  When the page
    cap is 0 or the base URL fails the scope test, the run returns the
    empty state: nothing is fetched, saved or logged.  Otherwise the
    first thing the run does is to claim the base URL, as number 1, and
    to fetch it. *)
Theorem root_decides_the_run (cfg : config) (arun : string -> fetch_outcome) :
  exists st,
    crawl cfg arun = Some st /\
    (max_pages cfg = 0 \/ in_scope cfg (base_url cfg) = false -> st = initial) /\
    (0 < max_pages cfg -> in_scope cfg (base_url cfg) = true ->
     exists evs,
       log st = Crawling 1 (base_url cfg) :: Arun (base_url cfg) :: evs).
Proof.
  destruct (crawl_coherent cfg arun) as (st & Hrun & _ & e & Hv).
  exists st. split; [done|]. split.
  - intros Hoff. unfold crawl in Hrun.
    rewrite Nat.add_succ_r, crawl_page_pruned in Hrun; [by injection Hrun|].
    rewrite pruned_root. destruct Hoff as [->| ->]; [done|].
    by rewrite orb_true_r.
  - intros Hcap Hscope.
    assert (pruned cfg (base_url cfg) 0 initial = false) as Hp.
    { rewrite pruned_root, Hscope.
      destruct (max_pages cfg) eqn:Hm; [lia|done]. }
    destruct (visits_starts cfg arun _ _ _ _ _ Hv Hp) as [_ _ [evs Hlog]].
    exists evs. rewrite Hlog. unfold initial. cbn [log claim emit visited_urls app].
    rewrite union_empty_r_L, size_singleton. done.
Qed.

(** * The files of pages *)

Lemma decimal_inj i j : decimal i = decimal j -> i = j.
Proof.
  unfold decimal. intros H. apply Unsigned.to_uint_inj.
  apply (f_equal NilEmpty.uint_of_string) in H.
  rewrite !NilEmpty.usu in H. by injection H.
Qed.

(** Reading the padded digits back as a number gives the number. *)
Lemma pad3_read n :
  option_map Nat.of_uint (NilEmpty.uint_of_string (pad3 n)) = Some n.
Proof.
  unfold pad3.
  generalize (3 - String.length (decimal n)). intros k.
  induction k as [|k IH].
  - change (repeat_string 0 "0" +:+ decimal n) with (decimal n).
    unfold decimal. rewrite NilEmpty.usu. simpl. by rewrite Unsigned.of_to.
  - change (repeat_string (S k) "0" +:+ decimal n)
      with (String "0" (repeat_string k "0" +:+ decimal n)).
    cbn [NilEmpty.uint_of_string].
    destruct (NilEmpty.uint_of_string (repeat_string k "0" +:+ decimal n))
      as [d|]; [|done].
    simpl in IH. injection IH as IH. simpl. by rewrite <- IH.
Qed.

Lemma pad3_inj i j : pad3 i = pad3 j -> i = j.
Proof.
  intros H. pose proof (pad3_read i) as Hi. rewrite H, pad3_read in Hi.
  by injection Hi.
Qed.

Lemma string_of_list_of (s : string) :
  string_of_list_ascii (list_ascii_of_string s) = s.
Proof. induction s as [|c s IH]; simpl; [done|]. by rewrite IH. Qed.

Lemma append_inv_tail (x y t : string) : x +:+ t = y +:+ t -> x = y.
Proof.
  intros H. apply (f_equal list_ascii_of_string) in H.
  rewrite !list_of_append in H. apply app_inv_tail in H.
  apply (f_equal string_of_list_ascii) in H. by rewrite !string_of_list_of in H.
Qed.

Lemma append_nil (b : string) : EmptyString +:+ b = b.
Proof. done. Qed.

Lemma append_cons c (a b : string) : String c a +:+ b = String c (a +:+ b).
Proof. done. Qed.

Lemma append_inv_head (t x y : string) : t +:+ x = t +:+ y -> x = y.
Proof.
  induction t as [|c t IH]; [done|].
  rewrite !append_cons. intros [= H]. by apply IH.
Qed.

Lemma page_filename_inj i j : page_filename i = page_filename j -> i = j.
Proof.
  unfold page_filename. intros H.
  by apply append_inv_head, append_inv_tail, pad3_inj in H.
Qed.

(** X11.  No two pages are written to the same file: the name
    [page_<index>.txt] determines the index, also beyond the three
    padded digits, so the names of the files of a list of records are
    pairwise distinct, there is one file per record, and the texts are
    those of the records in order. *)
Theorem page_files_have_distinct_names (scraped : list page_data) :
  (forall i j, page_filename i = page_filename j -> i = j) /\
  NoDup (map fst (page_files scraped)) /\
  length (page_files scraped) = length scraped /\
  map snd (page_files scraped) = map page_text scraped.
Proof.
  split_and!.
  - apply page_filename_inj.
  - unfold page_files.
    change (map fst ?l) with (fst <$> l). rewrite fmap_imap.
    rewrite (imap_ext _ (fun i _ => page_filename i)) by done.
    rewrite imap_seq_0. apply NoDup_fmap_2; [|apply NoDup_seq].
    intros i j. apply page_filename_inj.
  - apply length_imap.
  - unfold page_files.
    change (map snd ?l) with (snd <$> l). rewrite fmap_imap.
    rewrite (imap_ext _ (fun _ page => page_text page)) by done.
    apply imap_const.
Qed.

Lemma digits_no_newline d : Url.has_char nl (NilEmpty.string_of_uint d) = false.
Proof.
  unfold Url.has_char. apply negb_false_iff.
  induction d; simpl; done.
Qed.

(** The first line of a text is determined by the text. *)
Lemma first_line_unique (a a' b b' : string) :
  Url.has_char nl a = false -> Url.has_char nl a' = false ->
  a +:+ String nl b = a' +:+ String nl b' -> a = a' /\ b = b'.
Proof.
  unfold Url.has_char. rewrite !negb_false_iff.
  revert a'. induction a as [|c a IH]; intros [|c' a'] Ha Ha' H;
    rewrite ?append_nil, ?append_cons in H; simpl in Ha, Ha'.
  - by injection H.
  - injection H as <- _. apply andb_true_iff in Ha' as [Hc _].
    by rewrite Ascii.eqb_refl in Hc.
  - injection H as -> _. apply andb_true_iff in Ha as [Hc _].
    by rewrite Ascii.eqb_refl in Hc.
  - injection H as -> H.
    apply andb_true_iff in Ha as [_ Ha]. apply andb_true_iff in Ha' as [_ Ha'].
    destruct (IH a' Ha Ha' H) as [-> ->]. done.
Qed.

(** X12.  The text of a page file determines the record: two records
    whose URLs have no line feed and whose files have the same text are
    the same record. *)
Theorem page_text_determines_record (r r' : page_data) :
  Url.has_char nl (url r) = false ->
  Url.has_char nl (url r') = false ->
  page_text r = page_text r' ->
  r = r'.
Proof.
  intros Hu Hu' H. unfold page_text, newline in H.
  apply append_inv_head, first_line_unique in H as [Hurl H]; [|done..].
  apply append_inv_head, first_line_unique in H as [Hdepth H];
    [|apply digits_no_newline..].
  apply append_inv_head in H. injection H as H.
  apply decimal_inj in Hdepth. rewrite !append_nil in H.
  destruct r, r'. simpl in *. by subst.
Qed.

(** X12 at two records of the same URL and depth. *)
Lemma page_text_determines_record_witness :
  {| url := site_a; content := "text"; depth := 0 |}
  = {| url := site_a; content := "text"; depth := 0 |}.
Proof.
  apply (page_text_determines_record
           {| url := site_a; content := "text"; depth := 0 |}
           {| url := site_a; content := "text"; depth := 0 |});
    reflexivity.
Defined.

(** * The runs that the two collapsing rules leave *)

Lemma run_repeat c j u : j <= run c (repeat c j ++ u).
Proof.
  induction j as [|j IH]; simpl; [lia|]. rewrite Ascii.eqb_refl. lia.
Qed.

Lemma repeat_suffix (c : ascii) j (front m : list ascii) :
  repeat c j = front ++ m -> m = repeat c (length m) /\ length m <= j.
Proof.
  revert j. induction front as [|x front IH]; intros j H; simpl in H.
  - rewrite <- H, repeat_length. done.
  - destruct j as [|j]; [done|]. simpl in H. injection H as _ H.
    destruct (IH j H). split; [done|lia].
Qed.

Section Runs_left.

Variable c : ascii.
Variable min k : nat.
Variable repl : list Re.repl_item.
Hypothesis min_positive : 1 <= min.
Hypothesis repl_run : forall g, Re.expand repl g = repeat c k.

Abbreviation squeezed := (squeeze_runs c min repl).

Lemma short_runs_cons x l :
  Ascii.eqb x c = false -> short_runs c (Nat.max k (min - 1)) l ->
  short_runs c (Nat.max k (min - 1)) (x :: l).
Proof.
  intros Hx H front back Heq. destruct front as [|y front]; simpl in Heq.
  - subst back. simpl. rewrite Hx. lia.
  - injection Heq as _ Heq. by eapply H.
Qed.

Lemma short_runs_app j l :
  j <= Nat.max k (min - 1) -> run c l = 0 ->
  short_runs c (Nat.max k (min - 1)) l ->
  short_runs c (Nat.max k (min - 1)) (repeat c j ++ l).
Proof.
  intros Hj Hl H front back Heq.
  apply app_eq_app in Heq as [m [[Hrep ->]|[-> Hback]]].
  - apply repeat_suffix in Hrep as [Hm Hlen].
    rewrite Hm, run_repeat_app by done. lia.
  - by eapply H.
Qed.

(** After the substitution no run of [c] is longer than the replacement
    or than the longest run the pattern lets through. *)
Lemma squeezed_short_runs s :
  short_runs c (Nat.max k (min - 1)) (squeezed s).
Proof.
  induction s as [s IH] using (induction_ltof1 _ (@length ascii)).
  unfold ltof in IH.
  destruct (run_split c s) as [Hs Ht].
  destruct (run c s) as [|r] eqn:Hr.
  - destruct s as [|x s'].
    + intros front back Heq. destruct front, back; try done. simpl. lia.
    + simpl in Hr. destruct (Ascii.eqb x c) eqn:Hx; [done|].
      rewrite (squeeze_other c min k repl) by done.
      apply short_runs_cons; [done|]. apply IH. simpl. lia.
  - set (t := drop (S r) s) in *.
    assert (length t < length s) as Hlen.
    { rewrite (f_equal length Hs), length_app, repeat_length. lia. }
    pose proof (squeeze_keeps_head c min k repl min_positive repl_run t Ht) as Ht'.
    rewrite Hs, (squeeze_run c min k repl) by done.
    destruct (min <=? S r) eqn:Hle.
    + apply short_runs_app; [lia|done|by apply IH].
    + apply Nat.leb_gt in Hle. apply short_runs_app; [lia|done|by apply IH].
Qed.

(** A text whose runs of [c] the pattern lets through, or replaces by
    themselves, is left as it is. *)
Lemma squeezed_fixed s :
  (forall front back, s = front ++ back -> run c back < min \/ run c back = k) ->
  squeezed s = s.
Proof.
  induction s as [s IH] using (induction_ltof1 _ (@length ascii)).
  unfold ltof in IH. intros Hruns.
  destruct (run_split c s) as [Hs Ht].
  destruct (run c s) as [|r] eqn:Hr.
  - destruct s as [|x s']; [done|].
    simpl in Hr. destruct (Ascii.eqb x c) eqn:Hx; [done|].
    rewrite (squeeze_other c min k repl) by done.
    f_equal. apply IH; [simpl; lia|].
    intros front back ->. by apply (Hruns (x :: front)).
  - set (t := drop (S r) s) in *.
    assert (length t < length s) as Hlen.
    { rewrite (f_equal length Hs), length_app, repeat_length. lia. }
    rewrite Hs at 1. rewrite (squeeze_run c min k repl) by done.
    rewrite IH; [|done|].
    + destruct (min <=? S r) eqn:Hle; [|by rewrite <- Hs].
      apply Nat.leb_le in Hle.
      destruct (Hruns [] s eq_refl) as [Hlt|Hk]; [lia|].
      rewrite <- Hk, Hr. by rewrite <- Hs.
    + intros front back Heq. apply (Hruns (repeat c (S r) ++ front)).
      by rewrite <- app_assoc, <- Heq.
Qed.

End Runs_left.

Lemma occurs_in_lists (needle hay : string) :
  occurs_in needle hay <->
  exists front back,
    list_ascii_of_string hay
    = front ++ list_ascii_of_string needle ++ back.
Proof.
  split.
  - intros (pre & post & ->). exists (list_ascii_of_string pre), (list_ascii_of_string post).
    by rewrite !list_of_append.
  - intros (front & back & H).
    exists (string_of_list_ascii front), (string_of_list_ascii back).
    apply (f_equal string_of_list_ascii) in H. rewrite string_of_list_of in H.
    rewrite H. rewrite <- (string_of_list_of needle) at 2.
    rewrite <- (string_of_list_of (_ +:+ _)), !list_of_append.
    by rewrite !list_ascii_of_string_of_list_ascii.
Qed.

Lemma short_runs_no_occurrence c b (l : list ascii) :
  short_runs c b l ->
  forall front back, l <> front ++ repeat c (S b) ++ back.
Proof.
  intros H front back Heq.
  specialize (H front (repeat c (S b) ++ back) Heq).
  pose proof (run_repeat c (S b) back). lia.
Qed.

Lemma short_runs_inside c b (l front back : list ascii) :
  short_runs c b (front ++ l ++ back) -> short_runs c b l.
Proof.
  intros H front' back' ->.
  specialize (H (front ++ front') (back' ++ back)).
  rewrite <- !app_assoc in H. specialize (H eq_refl).
  assert (run c back' <= run c (back' ++ back)); [|lia].
  clear. induction back' as [|x back' IH]; simpl; [lia|].
  destruct (Ascii.eqb x c); lia.
Qed.

(** X13.  What the collapsing rules leave.  After the first rule no
    three line feeds stand side by side; after the rule for spaces no
    two spaces do; and, the strip coming last, no two spaces stand side
    by side in what [clean_content] returns. *)
Theorem collapsing_leaves_short_runs (s : string) :
  ~ occurs_in three_newlines (collapse_newlines s) /\
  ~ occurs_in "  " (collapse_spaces s) /\
  ~ occurs_in "  " (clean_content s).
Proof.
  assert (forall t, short_runs sp 1
            (list_ascii_of_string (collapse_spaces t))) as Hsp.
  { intros t. unfold collapse_spaces, Re.sub.
    rewrite list_ascii_of_string_of_list_ascii.
    apply (squeezed_short_runs sp 1 1); [lia|done]. }
  split_and!.
  - rewrite occurs_in_lists. intros (front & back & H).
    unfold collapse_newlines, Re.sub in H.
    rewrite list_ascii_of_string_of_list_ascii in H.
    eapply (short_runs_no_occurrence nl 2); [|exact H].
    apply (squeezed_short_runs nl 3 2); [lia|done].
  - rewrite occurs_in_lists. intros (front & back & H).
    by eapply (short_runs_no_occurrence sp 1); [apply Hsp|exact H].
  - rewrite occurs_in_lists. intros (front & back & H).
    unfold clean_content in H. rewrite strip_as_list in H.
    rewrite list_ascii_of_string_of_list_ascii in H.
    eapply (short_runs_no_occurrence sp 1); [|exact H].
    match goal with
    | |- short_runs _ _ (strip_list ?l) =>
        destruct (strip_list_split l) as (f0 & b0 & Hsplit);
        apply (short_runs_inside sp 1 _ f0 b0); rewrite <- Hsplit
    end.
    apply Hsp.
Qed.

(** * Texts that the rules leave alone, and image references *)

Lemma has_char_false c (s : string) :
  Url.has_char c s = false -> c ∉ list_ascii_of_string s.
Proof.
  unfold Url.has_char. rewrite negb_false_iff.
  induction s as [|x s IH]; simpl; intros H Hin.
  - by apply elem_of_nil in Hin.
  - apply andb_true_iff in H as [Hx H].
    apply elem_of_cons in Hin as [->|Hin]; [|by apply IH].
    by rewrite Ascii.eqb_refl in Hx.
Qed.

(** A pattern that starts with a literal does not match a text that
    lacks one of the literal's characters. *)
Lemma no_match_without c text pat (l : list ascii) :
  c ∈ list_ascii_of_string text -> c ∉ l ->
  Re.match_items (Re.Lit text :: pat) l = None.
Proof.
  intros Hc Hl. cbn [Re.match_items].
  destruct (Re.strip_prefix text l) as [l'|] eqn:Hp; [|done].
  apply strip_prefix_app in Hp as ->. exfalso. apply Hl.
  apply elem_of_app. by left.
Qed.

Lemma sub_without c text pat repl (s : string) :
  c ∈ list_ascii_of_string text -> Url.has_char c s = false ->
  Re.sub (Re.Lit text :: pat) repl s = s.
Proof.
  intros Hc Hs. apply has_char_false in Hs. unfold Re.sub.
  rewrite sub_from_no_match; [apply string_of_list_of|].
  intros front back Heq _. apply (no_match_without c); [done|].
  intros Hin. apply Hs. rewrite Heq. apply elem_of_app. by right.
Qed.

Lemma repeat_plus {A} (x : A) i j : repeat x (i + j) = repeat x i ++ repeat x j.
Proof. induction i as [|i IH]; simpl; [done|]. by rewrite IH. Qed.

(** A text in which a run of [S b] copies of [c] does not occur has only
    runs of at most [b]. *)
Lemma no_occurrence_short_runs c b (needle s : string) :
  list_ascii_of_string needle = repeat c (S b) ->
  str_in needle s = false ->
  short_runs c b (list_ascii_of_string s).
Proof.
  intros Hneedle Hs front back Heq.
  destruct (le_lt_dec (run c back) b) as [|Hlong]; [done|]. exfalso.
  assert (str_in needle s = true) as Hin; [|congruence].
  apply str_in_occurs, occurs_in_lists.
  destruct (run_split c back) as [Hback _].
  exists front, (repeat c (run c back - S b) ++ drop (run c back) back).
  rewrite Heq, Hneedle. f_equal. rewrite app_assoc, <- repeat_plus.
  by replace (S b + (run c back - S b)) with (run c back) by lia.
Qed.

(** X14.  A text that is already clean is left as it is: if it has no
    opening bracket, no three line feeds side by side, no two spaces
    side by side, and no white space at its ends, [clean_content]
    returns it unchanged. *)
Theorem clean_text_is_left_alone (s : string) :
  Url.has_char "[" s = false ->
  str_in three_newlines s = false ->
  str_in "  " s = false ->
  strip s = s ->
  clean_content s = s.
Proof.
  intros Hbracket Hnl Hsp Hstrip. unfold clean_content.
  assert (collapse_newlines s = s) as ->.
  { unfold collapse_newlines, Re.sub.
    change (Re.sub_from _ ?r 0 ?l) with (squeeze_runs nl 3 r l).
    rewrite (squeezed_fixed nl 3 2); [apply string_of_list_of|lia|done|].
    intros front back Heq. left.
    pose proof (no_occurrence_short_runs nl 2 three_newlines s eq_refl Hnl
                  front back Heq). lia. }
  assert (remove_navigation s = s) as ->.
  { apply (sub_without "["); [|done]. simpl. set_solver. }
  assert (images_to_alt s = s) as ->.
  { apply (sub_without "["); [|done]. simpl. set_solver. }
  assert (remove_empty_links s = s) as ->.
  { apply (sub_without "["); [|done]. simpl. set_solver. }
  assert (collapse_spaces s = s) as ->; [|done].
  unfold collapse_spaces, Re.sub.
  change (Re.sub_from _ ?r 0 ?l) with (squeeze_runs sp 1 r l).
  rewrite (squeezed_fixed sp 1 1); [apply string_of_list_of|lia|done|].
  intros front back Heq.
  pose proof (no_occurrence_short_runs sp 1 "  " s eq_refl Hsp
                front back Heq). lia.
Qed.

(** X14 at a plain sentence. *)
Lemma clean_text_is_left_alone_witness :
  clean_content "Plain text, no markup." = "Plain text, no markup.".
Proof.
  apply (clean_text_is_left_alone "Plain text, no markup."); reflexivity.
Defined.

Section Matching.

Variable cls : Re.charclass.
Variable R : Type.
Variable k : list ascii -> option R.

(** The lazy star stops as soon as what follows matches. *)
Lemma star_lazy_now s r : k s = Some r -> Re.star_lazy cls k s = Some ([], r).
Proof. intros H. destruct s; simpl; by rewrite H. Qed.

(** The lazy star passes over the characters of the class at which what
    follows does not match. *)
Lemma star_lazy_through (passed s : list ascii) :
  (forall x, x ∈ passed -> Re.class_matches cls x = true) ->
  (forall x rest, x ∈ passed -> k (x :: rest) = None) ->
  Re.star_lazy cls k (passed ++ s)
  = match Re.star_lazy cls k s with
    | Some (m, r) => Some (passed ++ m, r)
    | None => None
    end.
Proof.
  intros Hcls Hk. induction passed as [|x passed IH]; simpl.
  - by destruct (Re.star_lazy cls k s) as [[m r]|].
  - rewrite Hk by (by left). rewrite Hcls by (by left).
    rewrite IH.
    + by destruct (Re.star_lazy cls k s) as [[m r]|].
    + intros y Hy. apply Hcls. by right.
    + intros y rest Hy. apply Hk. by right.
Qed.

End Matching.

Section Substitution.

Variable pat : Re.pattern.
Variable repl : list Re.repl_item.

(** Where the pattern matches, the replacement is written and the
    substitution goes on after the match. *)
Lemma sub_from_match s g rest :
  Re.match_items pat s = Some (g, rest) -> length rest < length s ->
  Re.sub_from pat repl 0 s = Re.expand repl g ++ Re.sub_from pat repl 0 rest.
Proof.
  intros Hm Hlen. destruct s as [|x s]; [simpl in Hlen; lia|].
  cbn [Re.sub_from]. rewrite Hm.
  destruct (match_items_reads pat _ _ _ Hm) as (m & Hs & _).
  destruct m as [|y m]; [simpl in Hs; subst rest; lia|].
  simpl in Hs. injection Hs as -> ->.
  replace (length (y :: m ++ rest) - length rest) with (S (length m))
    by (simpl; rewrite length_app; lia).
  by rewrite sub_from_drop, drop_app_length.
Qed.

(** Characters at which the pattern cannot start are copied. *)
Lemma sub_from_copy (copied s : list ascii) :
  (forall x rest, x ∈ copied -> Re.match_items pat (x :: rest) = None) ->
  Re.sub_from pat repl 0 (copied ++ s) = copied ++ Re.sub_from pat repl 0 s.
Proof.
  intros H. induction copied as [|x copied IH]; [done|].
  cbn [app Re.sub_from]. rewrite H by (by left). f_equal.
  apply IH. intros y rest Hy. apply H. by right.
Qed.

End Substitution.

Lemma not_dot_newline x : x <> nl -> Re.class_matches Re.CDot x = true.
Proof.
  intros H. simpl. apply negb_true_iff. by apply Ascii.eqb_neq.
Qed.

Lemma lit_fails_at c text pat x rest :
  x <> c -> Re.match_items (Re.Lit (String c text) :: pat) (x :: rest) = None.
Proof.
  intros H. cbn [Re.match_items Re.strip_prefix].
  apply not_eq_sym, Ascii.eqb_neq in H. by rewrite H.
Qed.

Lemma strip_prefix_self text s :
  Re.strip_prefix text (list_ascii_of_string text ++ s) = Some s.
Proof.
  induction text as [|c text IH]; simpl; [done|]. by rewrite Ascii.eqb_refl.
Qed.

Lemma match_lit text pat s :
  Re.match_items (Re.Lit text :: pat) (list_ascii_of_string text ++ s)
  = Re.match_items pat s.
Proof. cbn [Re.match_items]. by rewrite strip_prefix_self. Qed.

Lemma match_lazy_star cls capture pat s :
  Re.match_items (Re.Rep cls 0 false capture :: pat) s
  = match Re.star_lazy cls (Re.match_items pat) s with
    | Some (m, (g, rest)) => Some (if capture then m else g, rest)
    | None => None
    end.
Proof. done. Qed.

(** The two link patterns that end with a lazy target: an opening
    literal, a lazy label, a middle literal that starts with the closing
    bracket, a lazy target and the closing parenthesis. *)
Lemma link_match (opening middle : string) (capture : bool)
    (label target rest : list ascii) :
  "]"%char ∉ label -> nl ∉ label -> ")"%char ∉ target -> nl ∉ target ->
  Re.match_items
    [Re.Lit opening; Re.Rep Re.CDot 0 false capture;
     Re.Lit (String "]" middle); Re.Rep Re.CDot 0 false false; Re.Lit ")"]
    (list_ascii_of_string opening ++ label
       ++ list_ascii_of_string (String "]" middle) ++ target
       ++ list_ascii_of_string ")" ++ rest)
  = Some (if capture then label else [], rest).
Proof.
  intros Ha1 Ha2 Ht1 Ht2.
  assert (Re.match_items
            [Re.Lit (String "]" middle); Re.Rep Re.CDot 0 false false; Re.Lit ")"]
            (list_ascii_of_string (String "]" middle) ++ target
               ++ list_ascii_of_string ")" ++ rest)
          = Some ([], rest)) as Htarget.
  { rewrite match_lit, match_lazy_star, star_lazy_through.
    - erewrite star_lazy_now.
      2: { rewrite match_lit. reflexivity. }
      done.
    - intros x Hx. apply not_dot_newline. by intros ->.
    - intros x r Hx. apply lit_fails_at. by intros ->. }
  rewrite match_lit, match_lazy_star, star_lazy_through.
  - erewrite star_lazy_now.
    2: { exact Htarget. }
    by rewrite app_nil_r.
  - intros x Hx. apply not_dot_newline. by intros ->.
  - intros x r Hx. apply lit_fails_at. by intros ->.
Qed.

(** X15.  The image rule keeps the alternative text of an image
    reference and drops the rest: in a text that starts with characters
    other than the exclamation mark, followed by [![alt](target)] where
    [alt] has no closing bracket, [target] no closing parenthesis and
    neither a line feed, the reference is replaced by [alt], what stands
    before is kept, and the rule goes on with what comes after. *)
Theorem image_reference_becomes_alt (before alt target rest : string) :
  Url.has_char "!" before = false ->
  Url.has_char "]" alt = false -> Url.has_char nl alt = false ->
  Url.has_char ")" target = false -> Url.has_char nl target = false ->
  images_to_alt (before +:+ "![" +:+ alt +:+ "](" +:+ target +:+ ")" +:+ rest)
  = before +:+ alt +:+ images_to_alt rest.
Proof.
  intros Hb Ha1 Ha2 Ht1 Ht2.
  apply has_char_false in Hb, Ha1, Ha2, Ht1, Ht2.
  unfold images_to_alt, Re.sub.
  rewrite !list_of_append, sub_from_copy.
  - rewrite (sub_from_match _ _ _ (list_ascii_of_string alt)
               (list_ascii_of_string rest)).
    + simpl (Re.expand _ _). rewrite app_nil_r.
      rewrite <- (string_of_list_of before) at 2.
      rewrite <- (string_of_list_of alt) at 2.
      rewrite <- (string_of_list_of (_ +:+ _ +:+ _)).
      by rewrite !list_of_append, !list_ascii_of_string_of_list_ascii.
    + by apply (link_match "![" "(" true).
    + rewrite !length_app. simpl. lia.
  - intros x r Hx. apply lit_fails_at. by intros ->.
Qed.

(** X15 at the logo of a page. *)
Lemma image_reference_becomes_alt_witness :
  images_to_alt ("See " +:+ "![" +:+ "Logo" +:+ "](" +:+ "/img/logo.png"
                 +:+ ")" +:+ " here")
  = "See " +:+ "Logo" +:+ images_to_alt " here".
Proof.
  apply (image_reference_becomes_alt "See " "Logo" "/img/logo.png" " here");
    reflexivity.
Defined.

(** X16.  The navigation rule removes a bullet whose link target starts
    with [javascript:void], up to the first closing parenthesis after
    it: what stands before the bullet (without an asterisk) is kept, and
    the rule goes on right after that parenthesis.  The label must have
    no closing bracket and [arguments], the text between
    [javascript:void] and that parenthesis, no line feed. *)
Theorem navigation_bullet_is_removed (before label arguments rest : string) :
  Url.has_char "*" before = false ->
  Url.has_char "]" label = false -> Url.has_char nl label = false ->
  Url.has_char ")" arguments = false -> Url.has_char nl arguments = false ->
  remove_navigation
    (before +:+ "* [" +:+ label +:+ "](javascript:void" +:+ arguments
       +:+ ")" +:+ rest)
  = before +:+ remove_navigation rest.
Proof.
  intros Hb Ha1 Ha2 Ht1 Ht2.
  apply has_char_false in Hb, Ha1, Ha2, Ht1, Ht2.
  unfold remove_navigation, Re.sub.
  rewrite !list_of_append, sub_from_copy.
  - rewrite (sub_from_match _ _ _ [] (list_ascii_of_string rest)).
    + simpl (Re.expand _ _). cbn [app].
      rewrite <- (string_of_list_of before) at 2.
      rewrite <- (string_of_list_of (_ +:+ _)).
      by rewrite !list_of_append, !list_ascii_of_string_of_list_ascii.
    + by apply (link_match "* [" "(javascript:void" false).
    + rewrite !length_app. simpl. lia.
  - intros x r Hx. apply lit_fails_at. by intros ->.
Qed.

(** X16 at the usual target [javascript:void(0)]: the rule stops at the
    parenthesis that closes the [(0], and the one that closes the link
    stays in the text. *)
Lemma navigation_bullet_is_removed_witness :
  remove_navigation
    ("" +:+ "* [" +:+ "Menu" +:+ "](javascript:void" +:+ "(0"
       +:+ ")" +:+ ") next")
  = "" +:+ remove_navigation ") next".
Proof.
  apply (navigation_bullet_is_removed "" "Menu" "(0" ") next"); reflexivity.
Defined.

Section Greedy.

Variable cls : Re.charclass.
Variable R : Type.
Variable k : list ascii -> option R.

(** The greedy star takes the characters of the class before a text
    from which the match goes through. *)
Lemma star_greedy_through (passed s : list ascii) m r :
  (forall x, x ∈ passed -> Re.class_matches cls x = true) ->
  Re.star_greedy cls k s = Some (m, r) ->
  Re.star_greedy cls k (passed ++ s) = Some (passed ++ m, r).
Proof.
  intros Hcls Hs. induction passed as [|x passed IH]; simpl; [done|].
  rewrite Hcls by (by left). rewrite IH; [done|].
  intros y Hy. apply Hcls. by right.
Qed.

(** At a character outside the class the greedy star takes nothing. *)
Lemma star_greedy_stop x s r :
  Re.class_matches cls x = false -> k (x :: s) = Some r ->
  Re.star_greedy cls k (x :: s) = Some ([], r).
Proof. intros Hx Hk. simpl. by rewrite Hx, Hk. Qed.

End Greedy.

Lemma match_greedy_star cls capture pat s :
  Re.match_items (Re.Rep cls 0 true capture :: pat) s
  = match Re.star_greedy cls (Re.match_items pat) s with
    | Some (m, (g, rest)) => Some (if capture then m else g, rest)
    | None => None
    end.
Proof. done. Qed.

(** The pattern of the empty links on a link whose label is blank. *)
Lemma empty_link_match (blanks target rest : list ascii) :
  (forall x, x ∈ blanks -> is_space x = true) ->
  ")"%char ∉ target -> nl ∉ target ->
  Re.match_items
    [Re.Lit "["; Re.Rep Re.CSpace 0 true false; Re.Lit "](";
     Re.Rep Re.CDot 0 false false; Re.Lit ")"]
    (list_ascii_of_string "[" ++ blanks ++ list_ascii_of_string "](" ++ target
       ++ list_ascii_of_string ")" ++ rest)
  = Some ([], rest).
Proof.
  intros Hblank Ht1 Ht2.
  assert (Re.match_items
            [Re.Lit "]("; Re.Rep Re.CDot 0 false false; Re.Lit ")"]
            (list_ascii_of_string "](" ++ target
               ++ list_ascii_of_string ")" ++ rest)
          = Some ([], rest)) as Htarget.
  { rewrite match_lit, match_lazy_star, star_lazy_through.
    - erewrite star_lazy_now.
      2: { rewrite match_lit. reflexivity. }
      done.
    - intros x Hx. apply not_dot_newline. by intros ->.
    - intros x r Hx. apply lit_fails_at. by intros ->. }
  rewrite match_lit, match_greedy_star.
  erewrite star_greedy_through; [|done|].
  2: { apply star_greedy_stop; [done|exact Htarget]. }
  done.
Qed.

(** X17.  The rule of the empty links removes a link whose label is
    blank: what stands before it (without an opening bracket) is kept,
    the link goes, up to the first closing parenthesis, and the rule
    goes on after it. *)
Theorem empty_link_is_removed (before blanks target rest : string) :
  Url.has_char "[" before = false ->
  Url.string_forall is_space blanks = true ->
  Url.has_char ")" target = false -> Url.has_char nl target = false ->
  remove_empty_links
    (before +:+ "[" +:+ blanks +:+ "](" +:+ target +:+ ")" +:+ rest)
  = before +:+ remove_empty_links rest.
Proof.
  intros Hb Hblank Ht1 Ht2.
  apply has_char_false in Hb, Ht1, Ht2.
  assert (forall x, x ∈ list_ascii_of_string blanks -> is_space x = true) as Hsp.
  { clear -Hblank. induction blanks as [|c blanks IH]; simpl in *; intros x Hx.
    - by apply elem_of_nil in Hx.
    - apply andb_true_iff in Hblank as [Hc Hblank].
      apply elem_of_cons in Hx as [->|Hx]; [done|by apply IH]. }
  unfold remove_empty_links, Re.sub.
  rewrite !list_of_append, sub_from_copy.
  - rewrite (sub_from_match _ _ _ [] (list_ascii_of_string rest)).
    + simpl (Re.expand _ _). cbn [app].
      rewrite <- (string_of_list_of before) at 2.
      rewrite <- (string_of_list_of (_ +:+ _)).
      by rewrite !list_of_append, !list_ascii_of_string_of_list_ascii.
    + by apply empty_link_match.
    + rewrite !length_app. simpl. lia.
  - intros x r Hx. apply lit_fails_at. by intros ->.
Qed.

(** X17 at a link with two spaces for a label. *)
Lemma empty_link_is_removed_witness :
  remove_empty_links
    ("Go " +:+ "[" +:+ "  " +:+ "](" +:+ "/ar/x" +:+ ")" +:+ " on")
  = "Go " +:+ remove_empty_links " on".
Proof.
  apply (empty_link_is_removed "Go " "  " "/ar/x" " on"); reflexivity.
Defined.

(** * Links that lead nowhere *)

Section Idle.

Variable cfg : config.
Variable arun : string -> fetch_outcome.

Lemma pruned_idle u d st :
  max_pages cfg <= size (visited_urls st) \/ max_depth cfg < d ->
  pruned cfg u d st = true.
Proof. intros [H|H]; [by apply pruned_full|by apply pruned_deep]. Qed.

End Idle.

(** X18.  Once nothing more can be claimed, every link still costs a
    sleep.  In the loop over the links of a page, when the page cap is
    reached or the links lie beyond the depth cap, and the resolver of
    the run resolves every link: the loop ends normally; for each link
    with a target whose URL is not yet visited the run sleeps once,
    calls [crawl_page], which returns at once, and goes on; nothing is
    claimed, fetched or saved. *)
Theorem idle_links_cost_sleeps (cfg : config) (arun : string -> fetch_outcome)
    (fuel d : nat) (ls : list link_data) (st : state) :
  max_pages cfg <= size (visited_urls st) \/ max_depth cfg < d + 1 ->
  (forall l, l ∈ ls -> Url.nonempty (link_url l) = true ->
     urljoin cfg (base_url cfg) (link_url l) <> None) ->
  crawl_links cfg (crawl_page_outcome cfg arun (S fuel)) d ls st
  = Some (Normal, Nat.iter (length (List.filter (pending cfg st) ls))
                    (emit Sleep) st).
Proof.
  intros Hidle. revert st Hidle.
  induction ls as [|l ls IH]; intros st Hidle Hres; [done|].
  assert (forall l0, l0 ∈ ls -> Url.nonempty (link_url l0) = true ->
            urljoin cfg (base_url cfg) (link_url l0) <> None) as Hres'.
  { intros l0 Hl0. apply Hres. by right. }
  cbn [crawl_links List.filter]. unfold pending at 1.
  destruct (Url.nonempty (link_url l)) eqn:Hne; cbn [andb].
  - destruct (urljoin cfg (base_url cfg) (link_url l)) as [full|] eqn:Hj.
    + case_bool_decide as Hin; cbn [negb].
      * by apply IH.
      * rewrite crawl_page_outcome_pruned by (by apply pruned_idle).
        rewrite IH; [|done..]. cbn [length].
        by rewrite Nat.iter_succ_r.
    + exfalso. eapply Hres; [by left|done..].
  - by apply IH.
Qed.

(** X18 at the root of the two-page site, with a page cap of 1: the
    link to the second page costs a sleep and nothing else. *)
Lemma idle_links_cost_sleeps_witness :
  crawl_links
    {| base_url := site_a; domain := "psut.edu.jo"; path_marker := "/ar";
       max_pages := 1; max_depth := 10; min_length := 100;
       urljoin := Url.urljoin |}
    (crawl_page_outcome
       {| base_url := site_a; domain := "psut.edu.jo"; path_marker := "/ar";
          max_pages := 1; max_depth := 10; min_length := 100;
          urljoin := Url.urljoin |}
       two_cycle 1)
    0 [LinkDict (Some "/ar/b")] (claim site_a initial)
  = Some (Normal, Nat.iter 1 (emit Sleep) (claim site_a initial)).
Proof.
  apply (idle_links_cost_sleeps
           {| base_url := site_a; domain := "psut.edu.jo"; path_marker := "/ar";
              max_pages := 1; max_depth := 10; min_length := 100;
              urljoin := Url.urljoin |}
           two_cycle 0 0 [LinkDict (Some "/ar/b")] (claim site_a initial)).
  - left. vm_compute. lia.
  - intros l Hl _. apply list_elem_of_singleton in Hl as ->. by vm_compute.
Defined.
